(** * lc-exchanger: the rate cache of [server/main.go]

    A shallow embedding of the server's rate cache ([getRates]), its
    upstream fetcher ([fetchFrankfurter]) and the projection onto the
    served currencies ([filterRates]), followed by the properties the
    specification states about them.

    Conventions.
    - A [time.Time] is the instant it denotes, in nanoseconds on the
      process's monotonic clock, as a [Z]; [time.Time{}] is instant 0.
      A [time.Duration] is an int64 count of nanoseconds.
    - A Go [map[string]float64] is a reference: the heap maps a location
      to the map's contents, and the nil map is [None].  Rates are
      binary64 numbers ([float]); the server only copies them.
    - A [*frankfurterResponse] is modelled by the struct it points to
      ([None] for nil): no statement of the program writes to a field of
      a decoded response, so only its [Rates] map is kept by reference.
    - What the network and the clock do is supplied from outside: the
      outcome of the HTTP round trip, and the time that passes up to
      each test of the snapshot's age and during the round trip. *)

From Stdlib Require Import ZArith Floats.PrimFloat.
From stdpp Require Import gmap strings list fin_maps.

#[local] Open Scope Z_scope.
#[local] Set Warnings "-inexact-float,-clear-no-such-hyp".

(** ** Time *)

Module time.

Abbreviation Time := Z (only parsing).
Abbreviation Duration := Z (only parsing).

Definition Nanosecond : Duration := 1.
Definition Second : Duration := 1000000000 * Nanosecond.
Definition Minute : Duration := 60 * Second.

Definition minDuration : Duration := - 2 ^ 63.
Definition maxDuration : Duration := 2 ^ 63 - 1.

(** [time.Time{}] *)
Definition zero : Time := 0.

(** [t.Sub(u)]: the difference, saturated to the range of a Duration. *)
Definition Sub (t u : Time) : Duration :=
  if t - u <? minDuration then minDuration
  else if maxDuration <? t - u then maxDuration
  else t - u.

(** [time.Since(t)] is [time.Now().Sub(t)]; [now] is the clock reading. *)
Definition Since (now t : Time) : Duration := Sub now t.

End time.

(** ** Constants and data *)

Definition cacheTTL : Z := 5 * time.Minute.

Definition targetCurrencies : list string := ["CNY"; "SEK"; "EUR"]%string.

Definition StatusOK : Z := 200.

(** Go's [error] values: those built by [errors.New], and those handed
    back by the libraries (net/http, encoding/json), which the server
    passes on without looking inside. *)
Inductive error :=
  | errors_New (text : string)
  | library_error (text : string).

#[global] Instance error_eq_dec : EqDecision error.
Proof. solve_decision. Defined.

Abbreviation loc := positive (only parsing).

(** The heap of rate maps. *)
Abbreviation Heap := (gmap loc (gmap string float)) (only parsing).

Record frankfurterResponse := {
  Base : string;
  Date : string;
  Rates : option loc
}.

Record rateCache := {
  payload : option frankfurterResponse;
  fetchedAt : Z
}.

(** What a map reference denotes: the nil map reads as the empty map. *)
Definition contents (h : Heap) (m : option loc) : gmap string float :=
  default ∅ (m ≫= (h !!.)).

(** [value, ok := m[key]] *)
Definition mapaccess2 (h : Heap) (m : option loc) (key : string) : option float :=
  contents h m !! key.

(** [m[key] = value], for a map made by [make] *)
Definition mapassign (h : Heap) (m : loc) (key : string) (value : float) : Heap :=
  alter (insert key value) m h.


(** [make(map[string]float64, n)]: a new, empty map at an unused location. *)
Definition makemap (h : Heap) : loc * Heap :=
  let r := fresh (dom h) in (r, <[r := ∅]> h).

(** ** filterRates *)

(** The body of the [range] loop, for one [code]. *)
Definition filterStep (payload : frankfurterResponse) (result : loc)
    (h : Heap) (code : string) : Heap :=
  match mapaccess2 h (Rates payload) code with
  | Some value => mapassign h result code value
  | None => h
  end.

Definition filterRates (payload : frankfurterResponse) (h : Heap) : loc * Heap :=
  let '(result, h) := makemap h in
  (result, foldl (filterStep payload result) h targetCurrencies).

(** The same projection on map contents, without the heap. *)
Definition project (targets : list string) (src : gmap string float)
    (acc : gmap string float) : gmap string float :=
  foldl (λ acc code, match src !! code with
                     | Some value => <[code := value]> acc
                     | None => acc
                     end) acc targets.
Arguments project : simpl never.

(** ** The upstream round trip, as the fetcher sees it *)

(** A Go [(value, error)] return: the value when the error is nil, the
    error otherwise (the functions here return zero values, nil and
    [time.Time{}], beside an error). *)
Inductive result (A : Type) :=
  | Ok (value : A)
  | Err (err : error).
Arguments Ok {A} value.
Arguments Err {A} err.

(** What [json.NewDecoder(resp.Body).Decode(&payload)] makes of the body:
    an error, or the fields of the struct ([rates] is [None] when the
    body leaves the map nil). *)
Inductive decoded :=
  | DecodeError (err : error)
  | Decoded (base date : string) (rates : option (gmap string float)).

Record Response := {
  StatusCode : Z;
  Status : string;
  Body : decoded
}.

(** One request to the upstream: building the request fails, or
    [httpClient.Do] fails (transport error, timeout, cancellation), or a
    response arrives. *)
Inductive roundTrip :=
  | NewRequestError (err : error)
  | DoError (err : error)
  | DoResponse (resp : Response).

(** ** The process state *)

(** An invocation of the fetcher, as a record kept beside the program:
    the instant it was called and what it returned. *)
Record Call := {
  issued : Z;
  outcome : result (frankfurterResponse * Z)
}.

(** The package variable [cache] (without its mutex, which the
    interleaved machine adds), the heap, the instant the process has
    reached, and the record of fetcher invocations. *)
Record World := {
  cache : rateCache;
  heap : Heap;
  clock : Z;
  calls : list Call
}.

Definition set_cache (c : rateCache) (w : World) : World :=
  {| cache := c; heap := heap w; clock := clock w; calls := calls w |}.
Definition set_heap (h : Heap) (w : World) : World :=
  {| cache := cache w; heap := h; clock := clock w; calls := calls w |}.
Definition set_clock (t : Z) (w : World) : World :=
  {| cache := cache w; heap := heap w; clock := t; calls := calls w |}.
Definition add_call (c : Call) (w : World) : World :=
  {| cache := cache w; heap := heap w; clock := clock w; calls := calls w ++ [c] |}.

(** [var cache = &rateCache{}], in an empty heap at clock [t0]. *)
Definition initial (t0 : Z) : World :=
  {| cache := {| payload := None; fetchedAt := time.zero |};
     heap := ∅; clock := t0; calls := [] |}.

(** Time passes, [elapsed] nanoseconds of it: the clock never runs
    backwards. *)
Definition pass (elapsed : N) (w : World) : World :=
  set_clock (clock w + Z.of_N elapsed) w.

(** [time.Now()] *)
Definition time_Now (w : World) : Z := clock w.

(** ** fetchFrankfurter *)

(** The decoder's map, put on the heap. *)
Definition decodeRates (rates : option (gmap string float)) (h : Heap)
    : option loc * Heap :=
  match rates with
  | None => (None, h)
  | Some m => let r := fresh (dom h) in (Some r, <[r := m]> h)
  end.

(** Lines 124-126, the status check: the error it returns, if any. *)
Definition statusError (resp : Response) : option error :=
  if bool_decide (StatusCode resp ≠ StatusOK) then
    Some (errors_New ("frankfurter responded with status " +:+ Status resp))
  else None.

(** The body of [fetchFrankfurter], at the time the round trip ends. *)
Definition fetchBody (rt : roundTrip) (w : World)
    : result (frankfurterResponse * Z) * World :=
  match rt with
  | NewRequestError err => (Err err, w)
  | DoError err => (Err err, w)
  | DoResponse resp =>
      match statusError resp with
      | Some err => (Err err, w)
      | None =>
        match Body resp with
        | DecodeError err => (Err err, w)
        | Decoded base date rates =>
            if bool_decide (base ≠ "USD"%string) then
              (Err (errors_New "unexpected base currency in response"), w)
            else
              let '(m, h) := decodeRates rates (heap w) in
              (Ok ({| Base := base; Date := date; Rates := m |}, time_Now w),
               set_heap h w)
        end
      end
  end.

(** [fetchFrankfurter(ctx)]: the round trip takes [elapsed]
    nanoseconds, and the invocation is recorded in [calls].  A struct or
    map that an error path drops is not kept in the heap. *)
Definition fetchFrankfurter (rt : roundTrip) (elapsed : N) (w : World)
    : result (frankfurterResponse * Z) * World :=
  let '(r, w') := fetchBody rt (pass elapsed w) in
  (r, add_call {| issued := clock w; outcome := r |} w').

(** ** getRates *)

(** The test [cache.payload != nil && time.Since(cache.fetchedAt) < cacheTTL]:
    the payload when it holds. *)
Definition isFresh (w : World) : option frankfurterResponse :=
  match payload (cache w) with
  | None => None
  | Some p =>
      if bool_decide (time.Since (time_Now w) (fetchedAt (cache w)) < cacheTTL)
      then Some p else None
  end.

(** The test, made [elapsed] nanoseconds after the instant the clock
    stands at. *)
Definition freshPayload (elapsed : N) (w : World)
    : option frankfurterResponse * World :=
  (isFresh (pass elapsed w), pass elapsed w).
Arguments freshPayload : simpl never.

(** The snapshot is not fresh at instant [now]: the negation of the
    test of lines 89 and 97. *)
Definition staleAt (c : rateCache) (now : Z) : Prop :=
  payload c = None ∨ cacheTTL ≤ now - fetchedAt c.

(** [return filterRates(p), cache.fetchedAt, nil] *)
Definition returnRates (p : frankfurterResponse) (w : World)
    : result (loc * Z) * World :=
  let '(rates, h) := filterRates p (heap w) in
  (Ok (rates, fetchedAt (cache w)), set_heap h w).

(** [cache.payload = payload; cache.fetchedAt = fetchedAt] *)
Definition store (p : frankfurterResponse) (at_ : Z) (w : World) : World :=
  set_cache {| payload := Some p; fetchedAt := at_ |} w.

(** What the outside contributes to one call: the time that passes up
    to the first test, from there to the second test, and during the
    round trip, and what the upstream does if it is asked. *)
Record Oracle := {
  wait1 : N;
  wait2 : N;
  trip : roundTrip;
  wait3 : N
}.

(** [getRates(ctx)] run on its own: no other goroutine holds [cache.mu],
    so the lock operations succeed at once and are left out here (the
    interleaved machine below keeps them). *)
Definition getRates (o : Oracle) (w : World) : result (loc * Z) * World :=
  match freshPayload (wait1 o) w with
  | (Some p, w) => returnRates p w
  | (None, w) =>
      match freshPayload (wait2 o) w with
      | (Some p, w) => returnRates p w
      | (None, w) =>
          match fetchFrankfurter (trip o) (wait3 o) w with
          | (Err err, w) => (Err err, w)
          | (Ok (p, at_), w) => returnRates p (store p at_ w)
          end
      end
  end.

(** ** getRates under interleaving *)

(** [sync.RWMutex], as far as the program uses it: how many read locks
    are held and whether the write lock is.  [Lock] waits for both to be
    free, [RLock] for the write lock only: a goroutine that must wait
    cannot take its step.  (Go also holds new readers back while a
    writer waits, which only removes interleavings.) *)
Record RWMutex := {
  readers : nat;
  writer : bool
}.

Definition unlocked : RWMutex := {| readers := 0; writer := false |}.

Definition RLock (mu : RWMutex) : option RWMutex :=
  if writer mu then None
  else Some {| readers := S (readers mu); writer := false |}.

Definition RUnlock (mu : RWMutex) : option RWMutex :=
  match readers mu with
  | O => None
  | S n => Some {| readers := n; writer := writer mu |}
  end.

Definition Lock (mu : RWMutex) : option RWMutex :=
  if writer mu then None
  else match readers mu with
       | O => Some {| readers := 0; writer := true |}
       | S _ => None
       end.

Definition Unlock (mu : RWMutex) : option RWMutex :=
  if writer mu then Some {| readers := readers mu; writer := false |} else None.

(** Where a goroutine stands in [getRates], by source line, with the
    locals it has bound. *)
Inductive pc :=
  | L88                                      (* cache.mu.RLock() *)
  | L89                                      (* the test, read lock held *)
  | L91                                      (* return filterRates(cache.payload), ... *)
  | DeferRUnlock (r : result (loc * Z))      (* the deferred RUnlock of line 90 *)
  | L93                                      (* cache.mu.RUnlock() *)
  | L95                                      (* cache.mu.Lock() *)
  | L97                                      (* the test again, lock held *)
  | L98                                      (* return filterRates(cache.payload), ... *)
  | L101                                     (* fetchFrankfurter(ctx) *)
  | L106 (p : frankfurterResponse) (at_ : Z) (* cache.payload = payload *)
  | L107 (p : frankfurterResponse) (at_ : Z) (* cache.fetchedAt = fetchedAt *)
  | L109 (p : frankfurterResponse)           (* return filterRates(payload), ... *)
  | DeferUnlock (r : result (loc * Z))       (* the deferred Unlock of line 96 *)
  | Returned (r : result (loc * Z)).

(** What the outside contributes to one step: which goroutine runs, the
    time that passes with it (counted at the tests and at the round
    trip, the steps whose outcome depends on the clock), and what the
    upstream does if asked. *)
Record Choice := {
  who : nat;
  elapsed : N;
  upstream : roundTrip
}.

(** [return filterRates(cache.payload), cache.fetchedAt, nil]: the
    payload is read from the cache again.  On a nil payload the
    dereference would panic; the goroutine then has no step here
    ([inv_payload] below: this does not arise). *)
Definition returnCached (w : World) : option (result (loc * Z) * World) :=
  p ← payload (cache w); Some (returnRates p w).

(** One step of a goroutine standing at [l]; [None] when it must wait
    (or has returned). *)
Definition advance (c : Choice) (mu : RWMutex) (w : World) (l : pc)
    : option (RWMutex * World * pc) :=
  match l with
  | L88 => mu' ← RLock mu; Some (mu', w, L89)
  | L89 =>
      match freshPayload (elapsed c) w with
      | (Some _, w') => Some (mu, w', L91)
      | (None, w') => Some (mu, w', L93)
      end
  | L91 => '(r, w') ← returnCached w; Some (mu, w', DeferRUnlock r)
  | DeferRUnlock r => mu' ← RUnlock mu; Some (mu', w, Returned r)
  | L93 => mu' ← RUnlock mu; Some (mu', w, L95)
  | L95 => mu' ← Lock mu; Some (mu', w, L97)
  | L97 =>
      match freshPayload (elapsed c) w with
      | (Some _, w') => Some (mu, w', L98)
      | (None, w') => Some (mu, w', L101)
      end
  | L98 => '(r, w') ← returnCached w; Some (mu, w', DeferUnlock r)
  | L101 =>
      match fetchFrankfurter (upstream c) (elapsed c) w with
      | (Err err, w') => Some (mu, w', DeferUnlock (Err err))
      | (Ok (p, at_), w') => Some (mu, w', L106 p at_)
      end
  | L106 p at_ =>
      Some (mu, set_cache {| payload := Some p; fetchedAt := fetchedAt (cache w) |} w,
            L107 p at_)
  | L107 p at_ =>
      Some (mu, set_cache {| payload := payload (cache w); fetchedAt := at_ |} w,
            L109 p)
  | L109 p => let '(r, w') := returnRates p w in Some (mu, w', DeferUnlock r)
  | DeferUnlock r => mu' ← Unlock mu; Some (mu', w, Returned r)
  | Returned _ => None
  end.

Record Machine := {
  world : World;
  mu : RWMutex;
  goroutines : list pc
}.

(** [n] calls of [getRates] about to start, over the process state [w]. *)
Definition start (n : nat) (w : World) : Machine :=
  {| world := w; mu := unlocked; goroutines := replicate n L88 |}.

Definition try_step (c : Choice) (m : Machine) : option Machine :=
  l ← goroutines m !! who c;
  '(mu', w', l') ← advance c (mu m) (world m) l;
  Some {| world := w'; mu := mu'; goroutines := <[who c := l']> (goroutines m) |}.

(** A step of the machine; a goroutine that cannot move stays put. *)
Definition step (c : Choice) (m : Machine) : Machine :=
  default m (try_step c m).

Definition run (schedule : list Choice) (m : Machine) : Machine :=
  foldl (λ m c, step c m) m schedule.

(** One call run alone, from the oracle of the sequential [getRates]. *)
Definition solo (o : Oracle) : list Choice :=
  let c (e : N) := {| who := 0; elapsed := e; upstream := trip o |} in
  [c 0%N; c (wait1 o); c 0%N; c 0%N; c (wait2 o); c (wait3 o);
   c 0%N; c 0%N; c 0%N; c 0%N].

(** The cache after a series of fetcher invocations, each successful one
    stored: the last success, or the cache as it was. *)
Definition cacheAfter (c0 : rateCache) (cs : list Call) : rateCache :=
  foldl (λ c call, match outcome call with
                   | Ok (p, at_) => {| payload := Some p; fetchedAt := at_ |}
                   | Err _ => c
                   end) c0 cs.

(** The program points at which a goroutine holds the write lock. *)
Definition holdsLock (l : pc) : bool :=
  match l with
  | L97 | L98 | L101 | L106 _ _ | L107 _ _ | L109 _ | DeferUnlock _ => true
  | _ => false
  end.

(** The program points before either test has succeeded and before the
    fetcher has been called. *)
Definition early (l : pc) : bool :=
  match l with
  | L88 | L89 | L93 | L95 | L97 | L101 => true
  | _ => false
  end.

(** The program points that read [cache.payload] to return it. *)
Definition returning (l : pc) : bool :=
  match l with L91 | L98 => true | _ => false end.

(** The program points between the fetcher's return and the end of the
    two assignments to the cache. *)
Definition storing (l : pc) : bool :=
  match l with L106 _ _ | L107 _ _ => true | _ => false end.

(** Fetcher invocations kept apart: after one that succeeded at [at_],
    the next is not made before [at_ + cacheTTL]. *)
Definition spaced (cs : list Call) : Prop :=
  ∀ i c1 c2 p at_,
    cs !! i = Some c1 → cs !! S i = Some c2 →
    outcome c1 = Ok (p, at_) → at_ + cacheTTL ≤ issued c2.

(** What holds of every state of the machine started on [w0]. *)
Record Inv (w0 : World) (m : Machine) : Prop := {
  inv_unlocked :
    writer (mu m) = false →
    ∀ i l, goroutines m !! i = Some l → holdsLock l = false;
  inv_exclusive :
    ∀ i j li lj,
      goroutines m !! i = Some li → goroutines m !! j = Some lj →
      holdsLock li = true → holdsLock lj = true → i = j;
  inv_clock : clock w0 ≤ clock (world m);
  inv_times :
    ∀ c, c ∈ calls (world m) →
         issued c ≤ clock (world m)
         ∧ ∀ p at_, outcome c = Ok (p, at_) → at_ ≤ clock (world m);
  inv_pending :
    ∀ i p at_,
      goroutines m !! i = Some (L106 p at_) →
      ∃ cs t, calls (world m) = cs ++ [{| issued := t; outcome := Ok (p, at_) |}]
              ∧ cache (world m) = cacheAfter (cache w0) cs;
  inv_halfway :
    ∀ i p at_,
      goroutines m !! i = Some (L107 p at_) →
      ∃ cs t, calls (world m) = cs ++ [{| issued := t; outcome := Ok (p, at_) |}]
              ∧ payload (cache (world m)) = Some p;
  inv_payload :
    ∀ i l, goroutines m !! i = Some l → returning l = true →
           is_Some (payload (cache (world m)));
  inv_stored :
    (∀ i l, goroutines m !! i = Some l → storing l = false) →
    cache (world m) = cacheAfter (cache w0) (calls (world m));
  inv_fetching :
    ∀ i, goroutines m !! i = Some L101 →
         staleAt (cache (world m)) (clock (world m));
  inv_spaced : spaced (calls (world m));
  inv_early :
    staleAt (cache w0) (clock w0) →
    calls (world m) = [] →
    ∀ i l, goroutines m !! i = Some l → early l = true
}.

(** ** The HTTP handler *)

Definition StatusMethodNotAllowed : Z := 405.
Definition StatusBadGateway : Z := 502.
Definition MethodGet : string := "GET".

Record apiResponse := {
  apiBase : string;
  UpdatedAt : Z;
  apiRates : loc
}.

(** What the handler writes: [http.Error(w, body, code)], or the JSON
    encoding of a response (with status 200). *)
Inductive reply :=
  | http_Error (body : string) (code : Z)
  | Encode (response : apiResponse).

(** [handleAllRate(w, r)] for a request of method [method]; the log
    lines are left out. *)
Definition handleAllRate (method : string) (o : Oracle) (w : World)
    : reply * World :=
  if bool_decide (method ≠ MethodGet) then
    (http_Error "method not allowed" StatusMethodNotAllowed, w)
  else
    match getRates o w with
    | (Err _, w') => (http_Error "failed to fetch rates" StatusBadGateway, w')
    | (Ok (rates, at_), w') =>
        (Encode {| apiBase := "USD"; UpdatedAt := at_; apiRates := rates |}, w')
    end.

(** The three outcomes of a call, with what each leaves behind: a
    test succeeded; the fetcher was called and failed; the fetcher was
    called and its result stored. *)
Definition served (o : Oracle) (w : World) : Prop :=
  ∃ p w1,
    payload (cache w) = Some p ∧ cache w1 = cache w ∧ heap w1 = heap w
    ∧ calls w1 = calls w ∧ clock w + Z.of_N (wait1 o) ≤ clock w1
    ∧ clock w1 - fetchedAt (cache w) < cacheTTL
    ∧ getRates o w = returnRates p w1.

Definition failed (o : Oracle) (w : World) : Prop :=
  ∃ t err w',
    getRates o w = (Err err, w')
    ∧ cache w' = cache w ∧ heap w' = heap w ∧ t ≤ clock w'
    ∧ calls w' = calls w ++ [{| issued := t; outcome := Err err |}]
    ∧ staleAt (cache w) t ∧ clock w + Z.of_N (wait1 o) ≤ t.

Definition refreshed (o : Oracle) (w : World) : Prop :=
  ∃ t p at_ w3,
    getRates o w = returnRates p w3
    ∧ cache w3 = {| payload := Some p; fetchedAt := at_ |}
    ∧ calls w3 = calls w ++ [{| issued := t; outcome := Ok (p, at_) |}]
    ∧ clock w3 = at_ ∧ staleAt (cache w) t
    ∧ clock w + Z.of_N (wait1 o) ≤ t ∧ t ≤ at_
    ∧ Base p = "USD"%string
    ∧ (∀ l, is_Some (heap w !! l) → heap w3 !! l = heap w !! l)
    ∧ (∀ l, Rates p = Some l → heap w !! l = None ∧ is_Some (heap w3 !! l)).

(** The program points after the call of the fetcher. *)
Definition fetched (l : pc) : bool :=
  match l with
  | L106 _ _ | L107 _ _ | L109 _ | DeferUnlock _ | Returned _ => true
  | _ => false
  end.

(** A step that leaves the cache, the call record and the write lock
    alone. *)
Record quiet (mu : RWMutex) (w : World) (l : pc)
    (mu' : RWMutex) (w' : World) (l' : pc) : Prop := {
  q_cache : cache w' = cache w;
  q_calls : calls w' = calls w;
  q_clock : clock w ≤ clock w';
  q_writer : writer mu' = writer mu;
  q_holds : holdsLock l' = holdsLock l;
  q_plain : storing l = false ∧ storing l' = false ∧ l ≠ L101;
  q_stale : l' = L101 → staleAt (cache w) (clock w');
  q_fresh : early l' = false → early l = true → ¬ staleAt (cache w) (clock w);
  q_fetched : fetched l = true → fetched l' = true;
  q_payload : returning l' = true → is_Some (payload (cache w))
}.

(** What one step of a goroutine does, by kind: a quiet step, taking
    the write lock, releasing it, the call of the fetcher, and the two
    assignments that store its result. *)
Inductive effect (mu : RWMutex) (w : World) (l : pc)
    (mu' : RWMutex) (w' : World) (l' : pc) : Prop :=
  | Quiet : quiet mu w l mu' w' l' → effect mu w l mu' w' l'
  | Acquire :
      w' = w → l = L95 → l' = L97 → writer mu = false → writer mu' = true →
      effect mu w l mu' w' l'
  | Release r :
      w' = w → l = DeferUnlock r → l' = Returned r → writer mu' = false →
      effect mu w l mu' w' l'
  | Fetched r :
      l = L101 → cache w' = cache w →
      calls w' = calls w ++ [{| issued := clock w; outcome := r |}] →
      mu' = mu → clock w ≤ clock w' →
      match r with
      | Ok (p, at_) => l' = L106 p at_ ∧ at_ = clock w'
      | Err e => l' = DeferUnlock (Err e)
      end →
      effect mu w l mu' w' l'
  | StoredPayload p at_ :
      l = L106 p at_ → l' = L107 p at_ →
      cache w' = {| payload := Some p; fetchedAt := fetchedAt (cache w) |} →
      calls w' = calls w → clock w' = clock w → mu' = mu →
      effect mu w l mu' w' l'
  | StoredTime p at_ :
      l = L107 p at_ → l' = L109 p →
      cache w' = {| payload := payload (cache w); fetchedAt := at_ |} →
      calls w' = calls w → clock w' = clock w → mu' = mu →
      effect mu w l mu' w' l'.


(** The program points at which a goroutine holds a read lock. *)
Definition holdsRLock (l : pc) : bool :=
  match l with
  | L89 | L91 | L93 | DeferRUnlock _ => true
  | _ => false
  end.

(** How many goroutines hold a read lock. *)
Definition countReaders (gs : list pc) : nat :=
  length (filter (λ l, holdsRLock l = true) gs).

(** The values a goroutine is about to return, or has returned. *)
Definition resultOf (l : pc) : option (result (loc * Z)) :=
  match l with
  | DeferRUnlock r | DeferUnlock r | Returned r => Some r
  | _ => None
  end.

(** Some recorded invocation of the fetcher succeeded at [at_]. *)
Definition fetchedIn (cs : list Call) (at_ : Z) : Prop :=
  ∃ c p, c ∈ cs ∧ outcome c = Ok (p, at_).

(** What holds, beside [Inv], of every state of the machine started on
    [w0]: the mutex counts the goroutines that hold a read lock, and
    never has readers and a writer at once; the fetcher is invoked
    during the run and returns when its round trip ends; and, when [w0]
    has no fresh snapshot, a goroutine about to return the cached
    snapshot, or returning one, has it from an invocation of the run. *)
Record Served (w0 : World) (m : Machine) : Prop := {
  sv_readers : readers (mu m) = countReaders (goroutines m);
  sv_apart : writer (mu m) = true → readers (mu m) = 0%nat;
  sv_issued :
    ∀ c, c ∈ calls (world m) →
         clock w0 ≤ issued c
         ∧ ∀ p at_, outcome c = Ok (p, at_) → issued c ≤ at_;
  sv_success :
    staleAt (cache w0) (clock w0) →
    ∀ i l, goroutines m !! i = Some l →
           returning l = true ∨ (∃ p, l = L109 p) →
           ∃ at_, fetchedIn (calls (world m)) at_;
  sv_result :
    staleAt (cache w0) (clock w0) →
    ∀ i l rates at_,
      goroutines m !! i = Some l → resultOf l = Some (Ok (rates, at_)) →
      fetchedIn (calls (world m)) at_
}.

(** A series of calls, one after the other. *)
Definition runCalls (os : list Oracle) (w : World) : World :=
  foldl (λ w o, (getRates o w).2) w os.

(** The map that the cached payload refers to is in the heap. *)
Definition allocated (w : World) : Prop :=
  ∀ p l, payload (cache w) = Some p → Rates p = Some l → is_Some (heap w !! l).

(** The cached snapshot is what a recorded, successful fetcher call
    returned, and its base is USD. *)
Definition validated (w : World) : Prop :=
  ∀ p, payload (cache w) = Some p →
       Base p = "USD"%string
       ∧ ∃ call, call ∈ calls w ∧ outcome call = Ok (p, fetchedAt (cache w)).

(** A success status in HTTP's sense, the 2xx class: the reading of the
    specification's words "success status", to compare the status check
    with. *)
Definition successStatus (code : Z) : Prop := 200 ≤ code ≤ 299.

(** ** Sample inputs *)

Module sample.

(** The upstream's table of the specification's scenario. *)
Definition table : gmap string float :=
  <["CNY" := 7.1%float]> (<["SEK" := 10.4%float]>
    (<["EUR" := 0.92%float]> (<["JPY" := 150%float]> ∅))).

Definition respond (code : Z) (status base : string) : roundTrip :=
  DoResponse {| StatusCode := code; Status := status;
                Body := Decoded base "2025-01-02" (Some table) |}.

Definition ok : roundTrip := respond 200 "200 OK" "USD".
Definition unavailable : roundTrip := respond 503 "503 Service Unavailable" "USD".
Definition euroBase : roundTrip := respond 200 "200 OK" "EUR".

(** A call, against the round trip [rt], in which a second passes
    before each test and during the round trip. *)
Definition call (rt : roundTrip) : Oracle :=
  {| wait1 := 1000000000; wait2 := 1000000000; trip := rt; wait3 := 1000000000 |}.

(** A call whose first test comes [d] nanoseconds after the instant the
    clock stands at. *)
Definition callAfter (d : N) (rt : roundTrip) : Oracle :=
  {| wait1 := d; wait2 := 0; trip := rt; wait3 := 1000000000 |}.

(** The process after one successful call from the empty cache. *)
Definition warm : World := (getRates (call ok) (initial 0)).2.

(** That process a nanosecond past the TTL after its snapshot was
    fetched, with the record of invocations begun anew. *)
Definition lapsed : World :=
  {| cache := cache warm; heap := heap warm;
     clock := fetchedAt (cache warm) + cacheTTL + 1; calls := [] |}.

(** Goroutine [i] takes a step; no time passes. *)
Definition turn (i : nat) (rt : roundTrip) : Choice :=
  {| who := i; elapsed := 0; upstream := rt |}.

(** Two calls arrive together: both take the read lock, find no fresh
    snapshot and release it; then each in turn takes the write lock and
    runs to its return. *)
Definition herd (rt : roundTrip) : list Choice :=
  let a := turn 0 rt in
  let b := turn 1 rt in
  [a; b; a; b; a; b; a; a; a; a; a; a; a; b; b; b; b; b; b; b].


End sample.

(** ** Properties of filterRates *)

Section filter.

Lemma contents_insert_eq (h : Heap) r m :
  contents (<[r := m]> h) (Some r) = m.
Proof. unfold contents. simpl. by rewrite lookup_insert_eq. Qed.

Lemma contents_insert_ne (h : Heap) r m o :
  o ≠ Some r → contents (<[r := m]> h) o = contents h o.
Proof.
  unfold contents. destruct o as [l|]; [|done]. intros Hne. simpl.
  rewrite lookup_insert_ne; [done | congruence].
Qed.

Lemma mapassign_insert (h : Heap) r m k v :
  mapassign (<[r := m]> h) r k v = <[r := <[k := v]> m]> h.
Proof.
  unfold mapassign. apply map_eq. intros l.
  destruct (decide (r = l)) as [->|Hne].
  - rewrite lookup_alter_eq, !lookup_insert_eq. done.
  - rewrite lookup_alter_ne, !lookup_insert_ne; done.
Qed.

Lemma project_lookup targets src acc c :
  project targets src acc !! c =
    if decide (c ∈ targets ∧ is_Some (src !! c)) then src !! c else acc !! c.
Proof.
  revert acc. induction targets as [|t ts IH]; intros acc; unfold project; cbn [foldl].
  - rewrite decide_False; [done|]. intros [H _]. by apply elem_of_nil in H.
  - match goal with |- foldl ?f ?a ts !! _ = _ => change (foldl f a ts) with (project ts src a) end.
    rewrite IH. clear IH.
    destruct (decide (c ∈ ts ∧ is_Some (src !! c))) as [[Hin Hs]|Hno].
    { rewrite decide_True; [done|]. split; [by apply elem_of_cons; right | done]. }
    destruct (decide (c = t)) as [->|Hne].
    + destruct (src !! t) as [v|] eqn:Ht.
      * rewrite lookup_insert_eq, decide_True; [done|].
        split; [by apply elem_of_cons; left | by eexists].
      * rewrite decide_False; [done|]. intros [_ [v Hv]]. congruence.
    + rewrite decide_False.
      * destruct (src !! t); [by rewrite lookup_insert_ne | done].
      * intros [Hin Hs]. apply elem_of_cons in Hin as [?|Hin]; [done|]. by apply Hno.
Qed.

Lemma fresh_unused (h : Heap) : h !! fresh (dom h) = None.
Proof. apply not_elem_of_dom, is_fresh. Qed.

(** The loop, started on a result map holding [acc], ends with the
    projection of the source map added to [acc]. *)
Lemma filter_loop p r (h : Heap) acc targets :
  h !! r = None →
  (Rates p = Some r → acc = ∅) →
  foldl (filterStep p r) (<[r := acc]> h) targets
  = <[r := project targets (contents h (Rates p)) acc]> h.
Proof.
  intros Hr. revert acc. induction targets as [|t ts IH]; intros acc Hacc.
  - done.
  - unfold project. cbn [foldl]. unfold filterStep at 2, mapaccess2.
    destruct (decide (Rates p = Some r)) as [Heq|Hne].
    + rewrite Heq in *. rewrite contents_insert_eq, (Hacc eq_refl), lookup_empty.
      unfold contents at 2. simpl. rewrite Hr. simpl. rewrite lookup_empty.
      rewrite IH; [|done]. unfold contents. simpl. by rewrite Hr.
    + rewrite contents_insert_ne; [|done].
      destruct (contents h (Rates p) !! t) as [v|].
      * rewrite mapassign_insert. apply IH. done.
      * apply IH. done.
Qed.

Lemma filterRates_eq p (h : Heap) :
  filterRates p h
  = (fresh (dom h),
     <[fresh (dom h) := project targetCurrencies (contents h (Rates p)) ∅]> h).
Proof.
  unfold filterRates, makemap. f_equal.
  apply filter_loop; [apply fresh_unused | done].
Qed.

(** The returned map, as contents. *)
Lemma filterRates_contents p (h : Heap) :
  contents (filterRates p h).2 (Some (filterRates p h).1)
  = project targetCurrencies (contents h (Rates p)) ∅.
Proof. rewrite filterRates_eq. simpl. apply contents_insert_eq. Qed.

End filter.

(** C3. The map that [filterRates] returns holds [c ↦ v] exactly when [c]
    is one of the target currencies and the payload's rates hold
    [c ↦ v]; a target currency the payload lacks is left out, nothing
    fails.  So its keys are the payload's keys among CNY, SEK, EUR: all
    three when the payload has them (whatever else it has), and CNY, SEK
    alone when EUR is missing. *)
Theorem filterRates_exact p (h : Heap) :
  let src := contents h (Rates p) in
  let out := contents (filterRates p h).2 (Some (filterRates p h).1) in
  (∀ c v, out !! c = Some v ↔ c ∈ targetCurrencies ∧ src !! c = Some v)
  ∧ dom out = dom src ∩ list_to_set targetCurrencies
  ∧ (({["CNY"; "SEK"; "EUR"]} : gset string) ⊆ dom src →
       dom out = {["CNY"; "SEK"; "EUR"]})
  ∧ ("EUR" ∉ dom src → ({["CNY"; "SEK"]} : gset string) ⊆ dom src →
       dom out = {["CNY"; "SEK"]}).
Proof.
  intros src out.
  assert (Hout : ∀ c, out !! c =
      if decide (c ∈ targetCurrencies ∧ is_Some (src !! c)) then src !! c else None).
  { intros c. unfold out. rewrite filterRates_contents, project_lookup.
    by rewrite lookup_empty. }
  assert (Hiff : ∀ c v, out !! c = Some v ↔ c ∈ targetCurrencies ∧ src !! c = Some v).
  { intros c v. rewrite Hout. case_decide as Hd.
    - split; [intros ?; by split; [apply Hd|] | by intros [_ ?]].
    - split; [done|]. intros [Hin Hs]. exfalso. apply Hd. split; [done | by eexists]. }
  assert (Hdom : dom out = dom src ∩ list_to_set targetCurrencies).
  { apply set_eq. intros c. rewrite elem_of_intersection, !elem_of_dom, elem_of_list_to_set.
    split.
    - intros [v Hv]. apply Hiff in Hv as [? ?]. split; [by eexists | done].
    - intros [[v Hv] Hin]. exists v. by apply Hiff. }
  split; [done|]. split; [done|]. rewrite Hdom. clear Hout Hiff Hdom.
  generalize (dom src). intros keys. unfold targetCurrencies. simpl.
  split; intros; set_solver.
Qed.

(** ** Properties of the fetcher and of a call run alone *)

Section sequential.

Lemma cacheTTL_value : cacheTTL = 300000000000.
Proof. reflexivity. Qed.

(** Saturation of the Duration cannot change the outcome of the test:
    the TTL lies inside the int64 range. *)
Lemma Since_lt_TTL (now t : Z) :
  time.Since now t < cacheTTL ↔ now - t < cacheTTL.
Proof.
  rewrite cacheTTL_value. unfold time.Since, time.Sub.
  change time.minDuration with (-9223372036854775808).
  change time.maxDuration with 9223372036854775807.
  destruct (Z.ltb_spec (now - t) (-9223372036854775808));
    [lia | destruct (Z.ltb_spec 9223372036854775807 (now - t)); lia].
Qed.

Lemma staleAt_later c now now' : staleAt c now → now ≤ now' → staleAt c now'.
Proof. intros [?|?] ?; [by left | right; lia]. Qed.

Lemma freshPayload_Some e w p w' :
  freshPayload e w = (Some p, w') →
  payload (cache w) = Some p
  ∧ w' = set_clock (clock w + Z.of_N e) w
  ∧ clock w' - fetchedAt (cache w) < cacheTTL.
Proof.
  unfold freshPayload, isFresh, time_Now, pass. simpl.
  destruct (payload (cache w)) as [q|]; [|done].
  case_bool_decide as Hd; [|done]. intros [= -> <-].
  apply Since_lt_TTL in Hd. done.
Qed.

Lemma freshPayload_None e w w' :
  freshPayload e w = (None, w') →
  cache w' = cache w ∧ heap w' = heap w ∧ calls w' = calls w
  ∧ clock w ≤ clock w' ∧ clock w' = clock w + Z.of_N e
  ∧ staleAt (cache w) (clock w').
Proof.
  unfold freshPayload, isFresh, time_Now, pass, staleAt. simpl.
  destruct (payload (cache w)) as [q|] eqn:Hq.
  - case_bool_decide as Hd; [done|]. intros [= <-]. simpl.
    rewrite Since_lt_TTL in Hd. repeat split; first [done | lia].
  - intros [= <-]. simpl. repeat split; first [done | lia | by left].
Qed.

Lemma freshPayload_fresh e w p :
  payload (cache w) = Some p →
  clock w + Z.of_N e - fetchedAt (cache w) < cacheTTL →
  freshPayload e w = (Some p, set_clock (clock w + Z.of_N e) w).
Proof.
  intros Hp Hage. unfold freshPayload, isFresh, time_Now, pass. simpl.
  rewrite Hp, bool_decide_true; [done|]. by apply Since_lt_TTL.
Qed.

Lemma returnRates_eq p w :
  returnRates p w
  = (Ok (fresh (dom (heap w)), fetchedAt (cache w)),
     set_heap (<[fresh (dom (heap w)) :=
                 project targetCurrencies (contents (heap w) (Rates p)) ∅]> (heap w)) w).
Proof. unfold returnRates. by rewrite filterRates_eq. Qed.

(** What the fetcher leaves behind, whatever the round trip. *)
Lemma fetchBody_frame rt w r w' :
  fetchBody rt w = (r, w') →
  cache w' = cache w ∧ calls w' = calls w ∧ clock w' = clock w
  ∧ (∀ l, is_Some (heap w !! l) → heap w' !! l = heap w !! l)
  ∧ match r with
    | Err _ => w' = w
    | Ok (p, at_) =>
        Base p = "USD"%string ∧ at_ = clock w
        ∧ ∀ l, Rates p = Some l → heap w !! l = None ∧ is_Some (heap w' !! l)
    end.
Proof.
  unfold fetchBody, time_Now. intros H.
  destruct rt as [err|err|resp]; try (injection H as <- <-; repeat split; done).
  destruct (statusError resp) as [err|];
    [injection H as <- <-; repeat split; done|].
  destruct (Body resp) as [err|base date rates];
    [injection H as <- <-; repeat split; done|].
  case_bool_decide as Hb; [injection H as <- <-; repeat split; done|].
  assert (base = "USD"%string) as -> by (by destruct (decide (base = "USD"%string))).
  destruct rates as [m|]; simpl in H; injection H as <- <-; simpl.
  - repeat split; try done.
    + intros l Hl. apply lookup_insert_ne. intros <-.
      rewrite fresh_unused in Hl. by destruct Hl.
    + injection H as <-. apply fresh_unused.
    + injection H as <-. rewrite lookup_insert_eq. by eexists.
  - repeat split; try done.
Qed.

Lemma fetchFrankfurter_frame rt e w r w' :
  fetchFrankfurter rt e w = (r, w') →
  cache w' = cache w
  ∧ calls w' = calls w ++ [{| issued := clock w; outcome := r |}]
  ∧ clock w' = clock w + Z.of_N e
  ∧ (∀ l, is_Some (heap w !! l) → heap w' !! l = heap w !! l)
  ∧ match r with
    | Err _ => heap w' = heap w
    | Ok (p, at_) =>
        Base p = "USD"%string ∧ at_ = clock w'
        ∧ ∀ l, Rates p = Some l → heap w !! l = None ∧ is_Some (heap w' !! l)
    end.
Proof.
  unfold fetchFrankfurter. destruct (fetchBody rt (pass e w)) as [r0 w0] eqn:Hb.
  intros [= <- <-]. apply fetchBody_frame in Hb as (Hc & Hcalls & Hclk & Hfr & Hr).
  simpl in *. rewrite Hcalls. repeat split; try done.
  destruct r0 as [[p at_]|err]; [|by subst].
  destruct Hr as (HB & Hat & Hal). split; [done|]. split; [lia|]. done.
Qed.

(** The two ways through [getRates]: a test succeeds and the cached
    payload is returned from a world that differs in its clock only,
    or both tests fail and the fetcher is called. *)
Lemma getRates_cases o w :
  (∃ p w1,
      payload (cache w) = Some p ∧ cache w1 = cache w ∧ heap w1 = heap w
      ∧ calls w1 = calls w ∧ clock w + Z.of_N (wait1 o) ≤ clock w1
      ∧ clock w1 - fetchedAt (cache w) < cacheTTL
      ∧ getRates o w = returnRates p w1)
  ∨ (∃ w2,
      cache w2 = cache w ∧ heap w2 = heap w ∧ calls w2 = calls w
      ∧ clock w2 = clock w + Z.of_N (wait1 o) + Z.of_N (wait2 o)
      ∧ staleAt (cache w) (clock w2)
      ∧ getRates o w =
          match fetchFrankfurter (trip o) (wait3 o) w2 with
          | (Err err, w') => (Err err, w')
          | (Ok (p, at_), w') => returnRates p (store p at_ w')
          end).
Proof.
  unfold getRates.
  destruct (freshPayload (wait1 o) w) as [[p|] w1] eqn:H1.
  { apply freshPayload_Some in H1 as (Hp & -> & Hage). left.
    exists p, (set_clock (clock w + Z.of_N (wait1 o)) w). simpl in *.
    repeat split; first [done | lia]. }
  apply freshPayload_None in H1 as (Hc1 & Hh1 & Hk1 & Hle1 & Hclk1 & Hs1).
  destruct (freshPayload (wait2 o) w1) as [[p|] w2] eqn:H2.
  { apply freshPayload_Some in H2 as (Hp & -> & Hage). left.
    exists p, (set_clock (clock w1 + Z.of_N (wait2 o)) w1). simpl in *.
    rewrite <- Hc1. repeat split; first [done | lia]. }
  apply freshPayload_None in H2 as (Hc2 & Hh2 & Hk2 & Hle2 & Hclk2 & Hs2).
  right. exists w2. rewrite <- Hc1.
  repeat split; first [congruence | lia | done].
Qed.

(** When the first test already fails, the second fails too (the
    clock has only advanced), and the fetcher is called. *)
Lemma getRates_stale o w :
  staleAt (cache w) (clock w + Z.of_N (wait1 o)) →
  ∃ w2,
    cache w2 = cache w ∧ heap w2 = heap w ∧ calls w2 = calls w
    ∧ clock w2 = clock w + Z.of_N (wait1 o) + Z.of_N (wait2 o)
    ∧ staleAt (cache w) (clock w2)
    ∧ getRates o w =
        match fetchFrankfurter (trip o) (wait3 o) w2 with
        | (Err err, w') => (Err err, w')
        | (Ok (p, at_), w') => returnRates p (store p at_ w')
        end.
Proof.
  intros Hs.
  destruct (getRates_cases o w) as [(p & w1 & Hp & _ & _ & _ & Hle & Hage & _)|H];
    [|done].
  destruct Hs as [Hs|Hs]; [congruence | lia].
Qed.

Lemma app_singleton_self {A} (l : list A) x : l ≠ l ++ [x].
Proof.
  intros H. apply (f_equal length) in H. rewrite length_app in H. simpl in H. lia.
Qed.

Lemma fetch_outcomes o w w2 :
  cache w2 = cache w → heap w2 = heap w → calls w2 = calls w →
  clock w + Z.of_N (wait1 o) ≤ clock w2 → staleAt (cache w) (clock w2) →
  getRates o w =
    match fetchFrankfurter (trip o) (wait3 o) w2 with
    | (Err err, w') => (Err err, w')
    | (Ok (p, at_), w') => returnRates p (store p at_ w')
    end →
  failed o w ∨ refreshed o w.
Proof.
  intros Hc Hh Hk Hle Hs Hg.
  destruct (fetchFrankfurter (trip o) (wait3 o) w2) as [[[p at_]|err] w'] eqn:Hf;
    apply fetchFrankfurter_frame in Hf as (Hc' & Hk' & Hclk & Hfr & Hr).
  - right. destruct Hr as (HB & Hat & Hal).
    exists (clock w2), p, at_, (store p at_ w'). simpl.
    rewrite Hk', Hk, <- Hh. repeat split; first [done | lia | apply Hal; done | idtac].
  - left. exists (clock w2), err, w'.
    rewrite Hc', Hr, Hk', Hk. repeat split; first [done | lia].
Qed.

Lemma getRates_outcomes o w : served o w ∨ failed o w ∨ refreshed o w.
Proof.
  destruct (getRates_cases o w) as [Hhit|(w2 & Hc & Hh & Hk & Hclk & Hs & Hg)];
    [by left | right]. eapply fetch_outcomes; [done..|lia|done|done].
Qed.

Lemma getRates_stale_outcomes o w :
  staleAt (cache w) (clock w + Z.of_N (wait1 o)) → failed o w ∨ refreshed o w.
Proof.
  intros Hs.
  destruct (getRates_stale o w Hs) as (w2 & Hc & Hh & Hk & Hclk & Hs2 & Hg).
  eapply fetch_outcomes; [done..|lia|done|done].
Qed.

(** A call whose fetcher invocation failed: the error comes back as
    it is and the world keeps its cache and heap. *)
Lemma getRates_failed_call o w call err :
  calls (getRates o w).2 = calls w ++ [call] →
  outcome call = Err err →
  ∃ w', getRates o w = (Err err, w') ∧ cache w' = cache w ∧ heap w' = heap w.
Proof.
  intros Hcalls Hout.
  destruct (getRates_outcomes o w)
    as [(p & w1 & _ & _ & _ & Hk & _ & _ & Hg)
       |[(t & e & w' & Hg & Hc & Hh & _ & Hk & _)
        |(t & p & at_ & w3 & Hg & _ & Hk & _)]];
    rewrite Hg in Hcalls.
  - rewrite returnRates_eq in Hcalls. simpl in Hcalls. rewrite Hk in Hcalls.
    by apply app_singleton_self in Hcalls.
  - simpl in Hcalls. rewrite Hk in Hcalls.
    apply app_inj_tail in Hcalls as [_ <-]. simpl in Hout. injection Hout as <-.
    by exists w'.
  - rewrite returnRates_eq in Hcalls. simpl in Hcalls. rewrite Hk in Hcalls.
    apply app_inj_tail in Hcalls as [_ <-]. done.
Qed.

(** A call that returns rates leaves a snapshot with the returned
    [fetchedAt] in the cache. *)
Lemma getRates_Ok_cache o w rates at_ :
  (getRates o w).1 = Ok (rates, at_) →
  ∃ p, cache (getRates o w).2 = {| payload := Some p; fetchedAt := at_ |}.
Proof.
  intros Hr.
  destruct (getRates_outcomes o w)
    as [(p & w1 & Hp & Hc & _ & _ & _ & _ & Hg)
       |[(t & e & w' & Hg & _)
        |(t & p & at' & w3 & Hg & Hc & _)]];
    rewrite Hg in Hr |- *; try done;
    rewrite returnRates_eq in Hr |- *; simpl in *; injection Hr as _ <-.
  - exists p. rewrite Hc. destruct (cache w); simpl in *. by subst.
  - exists p. by rewrite Hc.
Qed.

(** The test fails on a snapshot that is absent or has reached the TTL. *)
Lemma isFresh_stale w : staleAt (cache w) (clock w) → isFresh w = None.
Proof.
  unfold isFresh, time_Now. intros [Hs|Hs]; [by rewrite Hs|].
  destruct (payload (cache w)); [|done].
  rewrite bool_decide_false; [done|]. rewrite Since_lt_TTL. lia.
Qed.

(** With a snapshot that is absent or stale at the first test, both
    tests fail and the result of the call is what the fetcher makes of
    this call's round trip. *)
Lemma getRates_stale_eq o w :
  staleAt (cache w) (clock w + Z.of_N (wait1 o)) →
  getRates o w =
    match fetchFrankfurter (trip o) (wait3 o) (pass (wait2 o) (pass (wait1 o) w)) with
    | (Err err, w') => (Err err, w')
    | (Ok (p, at_), w') => returnRates p (store p at_ w')
    end.
Proof.
  intros Hs. unfold getRates, freshPayload.
  rewrite isFresh_stale by done.
  rewrite isFresh_stale; [done|].
  eapply staleAt_later; [exact Hs|]. simpl. lia.
Qed.

(** The fetcher on a response of status 200 whose body decodes to base
    USD. *)
Lemma fetchFrankfurter_Ok resp date rates e w :
  StatusCode resp = StatusOK → Body resp = Decoded "USD" date rates →
  fetchFrankfurter (DoResponse resp) e w
  = (Ok ({| Base := "USD"; Date := date;
            Rates := (decodeRates rates (heap w)).1 |}, clock w + Z.of_N e),
     add_call {| issued := clock w;
                 outcome := Ok ({| Base := "USD"; Date := date;
                                   Rates := (decodeRates rates (heap w)).1 |},
                                clock w + Z.of_N e) |}
       (set_heap (decodeRates rates (heap w)).2 (pass e w))).
Proof.
  intros Hst Hb. unfold fetchFrankfurter, fetchBody, statusError.
  rewrite bool_decide_false by (intros Hne; by apply Hne). rewrite Hb.
  rewrite bool_decide_false by (intros Hne; by apply Hne).
  simpl. by destruct (decodeRates rates (heap w)).
Qed.

(** The decoder's map is put at a location not in use. *)
Lemma decodeRates_contents rates (h : Heap) :
  contents (decodeRates rates h).2 (decodeRates rates h).1 = default ∅ rates.
Proof. destruct rates as [m|]; simpl; [apply contents_insert_eq | done]. Qed.

Lemma decodeRates_allocated rates (h : Heap) l :
  (decodeRates rates h).1 = Some l →
  h !! l = None ∧ is_Some ((decodeRates rates h).2 !! l).
Proof.
  destruct rates as [m|]; simpl; [|done]. intros [= <-].
  split; [apply fresh_unused | rewrite lookup_insert_eq; by eexists].
Qed.

(** A call that finds the snapshot absent or stale at its first test:
    the record of invocations gains the fetcher's result on this call's
    round trip; when that is a success, its payload and time are what
    the cache then holds and what is returned; and a response of status
    200 with base USD is such a success. *)
Lemma getRates_refresh o w :
  staleAt (cache w) (clock w + Z.of_N (wait1 o)) →
  let w2 := pass (wait2 o) (pass (wait1 o) w) in
  let f := fetchFrankfurter (trip o) (wait3 o) w2 in
  calls (getRates o w).2 = calls w ++ [{| issued := clock w2; outcome := f.1 |}]
  ∧ (∀ p at_,
       f.1 = Ok (p, at_) →
       cache (getRates o w).2 = {| payload := Some p; fetchedAt := at_ |}
       ∧ (getRates o w).1 = Ok ((filterRates p (heap f.2)).1, at_)
       ∧ heap (getRates o w).2 = (filterRates p (heap f.2)).2
       ∧ at_ = clock w2 + Z.of_N (wait3 o)
       ∧ (is_Some (payload (cache w)) →
          fetchedAt (cache w) + cacheTTL ≤ at_ ∧ fetchedAt (cache w) < at_))
  ∧ (∀ resp date rates,
       trip o = DoResponse resp → StatusCode resp = StatusOK →
       Body resp = Decoded "USD" date rates →
       ∃ stored out,
         cache (getRates o w).2
         = {| payload := Some {| Base := "USD"; Date := date; Rates := stored |};
              fetchedAt := clock w2 + Z.of_N (wait3 o) |}
         ∧ contents (heap (getRates o w).2) stored = default ∅ rates
         ∧ (getRates o w).1 = Ok (out, clock w2 + Z.of_N (wait3 o))
         ∧ (is_Some (payload (cache w)) →
            fetchedAt (cache w) < clock w2 + Z.of_N (wait3 o))).
Proof.
  intros Hs. cbv zeta. set (w2 := pass (wait2 o) (pass (wait1 o) w)).
  assert (Hg := getRates_stale_eq o w Hs). fold w2 in Hg.
  assert (Hw2 : clock w2 = clock w + Z.of_N (wait1 o) + Z.of_N (wait2 o)) by done.
  assert (Hs2 : staleAt (cache w) (clock w2)).
  { eapply staleAt_later; [exact Hs | lia]. }
  assert (Hk2 : calls w2 = calls w) by done.
  clearbody w2.
  destruct (fetchFrankfurter (trip o) (wait3 o) w2) as [r w'] eqn:Hfe.
  destruct (fetchFrankfurter_frame _ _ _ _ _ Hfe) as (Hc & Hk & Hclk & Hfr & Hr).
  simpl.
  assert (Hok : ∀ p at_,
       r = Ok (p, at_) →
       cache (getRates o w).2 = {| payload := Some p; fetchedAt := at_ |}
       ∧ (getRates o w).1 = Ok ((filterRates p (heap w')).1, at_)
       ∧ heap (getRates o w).2 = (filterRates p (heap w')).2
       ∧ at_ = clock w2 + Z.of_N (wait3 o)
       ∧ (is_Some (payload (cache w)) →
          fetchedAt (cache w) + cacheTTL ≤ at_ ∧ fetchedAt (cache w) < at_)).
  { intros p at_ ->. rewrite Hg. unfold returnRates, store. simpl.
    destruct (filterRates p (heap w')) as [out h']. simpl.
    destruct Hr as (_ & Hat & _).
    assert (Hlate : is_Some (payload (cache w)) → fetchedAt (cache w) + cacheTTL ≤ at_).
    { intros [q Hq]. destruct Hs2 as [Hn|Hn]; [congruence | lia]. }
    split; [done|]. split; [done|]. split; [done|]. split; [congruence|].
    intros Hq. pose proof (Hlate Hq) as Hl. split; [done|].
    rewrite cacheTTL_value in Hl. lia. }
  split; [|split; [done|]].
  - rewrite Hg, <- Hk2. destruct r as [[p at_]|err]; [|done].
    rewrite returnRates_eq. done.
  - intros resp date rates Ht Hst Hb.
    rewrite Ht, (fetchFrankfurter_Ok _ _ _ _ _ Hst Hb) in Hfe.
    injection Hfe as <- <-.
    destruct (Hok _ _ eq_refl) as (Hc' & Hres & Hh & _ & Hlate).
    exists (decodeRates rates (heap w2)).1. eexists.
    split; [done|]. split; [|split; [exact Hres|]].
    + rewrite Hh, filterRates_eq. cbn [snd heap add_call set_heap].
      rewrite contents_insert_ne; [apply decodeRates_contents|].
      intros Hl. apply decodeRates_allocated in Hl as [_ Hl].
      rewrite fresh_unused in Hl. by destruct Hl.
    + intros Hq. by destruct (Hlate Hq).
Qed.

End sequential.

(** ** What the specification states of a call run alone *)

(** C1. Whenever a call of [getRates] invokes the fetcher and the
    fetcher fails, [getRates] returns an error and leaves the cache as
    it was: the payload and [fetchedAt] of an existing snapshot are kept
    (and the rate map it refers to, with every other map in the heap),
    and where there was no snapshot there is none afterwards. *)
Theorem getRates_failure_keeps_snapshot o w call err :
  calls (getRates o w).2 = calls w ++ [call] →
  outcome call = Err err →
  (∃ e, (getRates o w).1 = Err e)
  ∧ cache (getRates o w).2 = cache w
  ∧ heap (getRates o w).2 = heap w
  ∧ (payload (cache w) = None → payload (cache (getRates o w).2) = None).
Proof.
  intros Hcalls Hout.
  destruct (getRates_failed_call o w call err Hcalls Hout) as (w' & -> & Hc & Hh).
  simpl. split; [by exists err|]. split; [done|]. split; [done|]. by rewrite Hc.
Qed.

Lemma getRates_failure_keeps_snapshot_witness :
  let o := sample.callAfter 400000000000 sample.unavailable in
  (∃ e, (getRates o sample.warm).1 = Err e)
  ∧ cache (getRates o sample.warm).2 = cache sample.warm
  ∧ heap (getRates o sample.warm).2 = heap sample.warm
  ∧ (payload (cache sample.warm) = None →
     payload (cache (getRates o sample.warm).2) = None).
Proof.
  intros o.
  apply (getRates_failure_keeps_snapshot o sample.warm
           {| issued := 403000000000;
              outcome := Err (errors_New
                "frankfurter responded with status 503 Service Unavailable") |}
           (errors_New "frankfurter responded with status 503 Service Unavailable")).
  - vm_compute. reflexivity.
  - reflexivity.
Defined.

(** C2. When the cache holds a snapshot whose age, at the instant the
    call tests it, is below the TTL, [getRates] returns [filterRates] of the
    cached payload with the cached [fetchedAt], calls the fetcher not at
    all and leaves the cache as it is.  So a call made while the
    [fetchedAt] that the previous call returned is less than a TTL old
    returns the same [fetchedAt] without a fetch; in particular when the
    previous call made its first test at [T0] and went on to fetch, and
    this one makes its test before [T0 + TTL]. *)
Theorem getRates_serves_fresh_snapshot :
  (∀ o w p,
      payload (cache w) = Some p →
      clock w + Z.of_N (wait1 o) - fetchedAt (cache w) < cacheTTL →
      (getRates o w).1 = Ok ((filterRates p (heap w)).1, fetchedAt (cache w))
      ∧ heap (getRates o w).2 = (filterRates p (heap w)).2
      ∧ calls (getRates o w).2 = calls w
      ∧ cache (getRates o w).2 = cache w)
  ∧ (∀ o1 o2 w rates1 at1,
      (getRates o1 w).1 = Ok (rates1, at1) →
      clock (getRates o1 w).2 + Z.of_N (wait1 o2) - at1 < cacheTTL →
      (∃ rates2, (getRates o2 (getRates o1 w).2).1 = Ok (rates2, at1))
      ∧ calls (getRates o2 (getRates o1 w).2).2 = calls (getRates o1 w).2)
  ∧ (∀ o1 o2 w rates1 at1,
      (getRates o1 w).1 = Ok (rates1, at1) →
      calls (getRates o1 w).2 ≠ calls w →
      clock (getRates o1 w).2 + Z.of_N (wait1 o2)
      < clock w + Z.of_N (wait1 o1) + cacheTTL →
      (∃ rates2, (getRates o2 (getRates o1 w).2).1 = Ok (rates2, at1))
      ∧ calls (getRates o2 (getRates o1 w).2).2 = calls (getRates o1 w).2).
Proof.
  assert (Hhit : ∀ o w p,
      payload (cache w) = Some p →
      clock w + Z.of_N (wait1 o) - fetchedAt (cache w) < cacheTTL →
      (getRates o w).1 = Ok ((filterRates p (heap w)).1, fetchedAt (cache w))
      ∧ heap (getRates o w).2 = (filterRates p (heap w)).2
      ∧ calls (getRates o w).2 = calls w
      ∧ cache (getRates o w).2 = cache w).
  { intros o w p Hp Hage. unfold getRates.
    rewrite (freshPayload_fresh _ _ _ Hp Hage). unfold returnRates. simpl.
    destruct (filterRates p (heap w)) as [rates h]. done. }
  assert (Hnext : ∀ o1 o2 w rates1 at1,
      (getRates o1 w).1 = Ok (rates1, at1) →
      clock (getRates o1 w).2 + Z.of_N (wait1 o2) - at1 < cacheTTL →
      (∃ rates2, (getRates o2 (getRates o1 w).2).1 = Ok (rates2, at1))
      ∧ calls (getRates o2 (getRates o1 w).2).2 = calls (getRates o1 w).2).
  { intros o1 o2 w rates1 at1 Hr Hage.
    destruct (getRates_Ok_cache _ _ _ _ Hr) as [p Hc].
    destruct (Hhit o2 (getRates o1 w).2 p) as (H1 & _ & H3 & _).
    - by rewrite Hc.
    - by rewrite Hc.
    - rewrite Hc in H1. split; [by eexists | done]. }
  split; [done|]. split; [done|].
  intros o1 o2 w rates1 at1 Hr Hcalls Hbefore. apply (Hnext _ _ _ rates1); [done|].
  enough (clock w + Z.of_N (wait1 o1) ≤ at1) by lia.
  destruct (getRates_outcomes o1 w)
    as [(p & w1 & _ & _ & _ & Hk & _ & _ & Hg)
       |[(t & e & w' & Hg & _)
        |(t & p & at' & w3 & Hg & Hc & _ & _ & _ & Hle1 & Hle2 & _)]];
    rewrite Hg in Hr, Hcalls; rewrite ?returnRates_eq in Hr, Hcalls; simpl in *.
  - by rewrite Hk in Hcalls.
  - done.
  - injection Hr as _ <-. rewrite Hc. simpl. lia.
Qed.

Lemma getRates_serves_fresh_snapshot_witness :
  let o1 := sample.call sample.ok in
  let o2 := sample.callAfter 297000000000 sample.unavailable in
  (getRates o2 sample.warm).1
  = Ok ((filterRates {| Base := "USD"; Date := "2025-01-02"; Rates := Some 1%positive |}
                     (heap sample.warm)).1, 3000000000)
  ∧ ((∃ rates2, (getRates o2 (getRates o1 (initial 0)).2).1 = Ok (rates2, 3000000000))
     ∧ calls (getRates o2 (getRates o1 (initial 0)).2).2
       = calls (getRates o1 (initial 0)).2).
Proof.
  intros o1 o2. split.
  - apply (proj1 getRates_serves_fresh_snapshot o2 sample.warm
             {| Base := "USD"; Date := "2025-01-02"; Rates := Some 1%positive |});
      vm_compute; reflexivity.
  - apply (proj2 (proj2 getRates_serves_fresh_snapshot) o1 o2 (initial 0) 2%positive).
    + vm_compute. reflexivity.
    + vm_compute. discriminate.
    + vm_compute. reflexivity.
Defined.

(** C5, as stated, fails: when the upstream answers 503 the error that
    [getRates] returns is the fetcher's own error value, not another
    one made from it. *)
Lemma getRates_error_not_normalized :
  ¬ (∀ o w call err,
        calls (getRates o w).2 = calls w ++ [call] →
        outcome call = Err err →
        ∃ err', (getRates o w).1 = Err err' ∧ err' ≠ err).
Proof.
  intros H.
  destruct (H (sample.call sample.unavailable) (initial 0)
              {| issued := 2000000000;
                 outcome := Err (errors_New
                   "frankfurter responded with status 503 Service Unavailable") |}
              (errors_New "frankfurter responded with status 503 Service Unavailable"))
    as (err' & He & Hne).
  - vm_compute. reflexivity.
  - reflexivity.
  - vm_compute in He. injection He as <-. by apply Hne.
Qed.

(** C5, amended. Whenever a call of [getRates] invokes the fetcher and
    the fetcher fails, [getRates] returns the fetcher's error unchanged;
    it is the HTTP handler that answers every error of [getRates] alike,
    with status 502 and the message "failed to fetch rates". *)
Theorem getRates_returns_fetch_error o w call err :
  calls (getRates o w).2 = calls w ++ [call] →
  outcome call = Err err →
  (getRates o w).1 = Err err
  ∧ (handleAllRate MethodGet o w).1
    = http_Error "failed to fetch rates" StatusBadGateway.
Proof.
  intros Hcalls Hout. unfold handleAllRate.
  destruct (getRates_failed_call o w call err Hcalls Hout) as (w' & -> & _).
  done.
Qed.

Lemma getRates_returns_fetch_error_witness :
  let o := sample.call (DoError (library_error "context deadline exceeded")) in
  (getRates o (initial 0)).1 = Err (library_error "context deadline exceeded")
  ∧ (handleAllRate MethodGet o (initial 0)).1
    = http_Error "failed to fetch rates" StatusBadGateway.
Proof.
  intros o.
  apply (getRates_returns_fetch_error o (initial 0)
           {| issued := 2000000000;
              outcome := Err (library_error "context deadline exceeded") |}).
  - vm_compute. reflexivity.
  - reflexivity.
Defined.

(** ** What the specification states of the fetcher *)

Lemma statusError_OK resp : StatusCode resp = StatusOK → statusError resp = None.
Proof. intros H. unfold statusError. by rewrite bool_decide_false; [|rewrite H; auto]. Qed.

Lemma statusError_other resp :
  StatusCode resp ≠ StatusOK →
  statusError resp
  = Some (errors_New ("frankfurter responded with status " +:+ Status resp)).
Proof. intros H. unfold statusError. by rewrite bool_decide_true. Qed.

(** A response with status 200 and a decoded body of another base. *)
Lemma fetchFrankfurter_base_mismatch resp base date rates e w :
  StatusCode resp = StatusOK →
  Body resp = Decoded base date rates →
  base ≠ "USD"%string →
  fetchFrankfurter (DoResponse resp) e w
  = (Err (errors_New "unexpected base currency in response"),
     add_call {| issued := clock w;
                 outcome := Err (errors_New "unexpected base currency in response") |}
              (pass e w)).
Proof.
  intros Hst Hb Hne. unfold fetchFrankfurter, fetchBody.
  rewrite (statusError_OK _ Hst), Hb. by rewrite bool_decide_true.
Qed.

(** C7, as stated, fails in its last part: for a response of base EUR
    the caller of [getRates] receives the fetcher's base-mismatch error
    itself, not an error made from it. *)
Lemma base_mismatch_not_normalized :
  ¬ (∀ o w resp base date rates,
        trip o = DoResponse resp →
        StatusCode resp = StatusOK →
        Body resp = Decoded base date rates →
        base ≠ "USD"%string →
        staleAt (cache w) (clock w + Z.of_N (wait1 o)) →
        ∃ err', (getRates o w).1 = Err err'
                ∧ err' ≠ errors_New "unexpected base currency in response").
Proof.
  intros H.
  destruct (H (sample.call sample.euroBase) (initial 0)
              {| StatusCode := 200; Status := "200 OK";
                 Body := Decoded "EUR" "2025-01-02" (Some sample.table) |}
              "EUR"%string "2025-01-02"%string (Some sample.table))
    as (err' & He & Hne); try done.
  - by left.
  - vm_compute in He. injection He as <-. by apply Hne.
Qed.

(** C7, amended. For every response with status 200 whose decoded base
    is not USD the fetcher fails with the error "unexpected base
    currency in response"; it builds no payload and touches neither
    heap nor cache.  A call of [getRates] that has to refresh
    against such a response returns that same error to its caller and
    keeps cache and heap as they were. *)
Theorem fetchFrankfurter_rejects_other_base resp base date rates w :
  StatusCode resp = StatusOK →
  Body resp = Decoded base date rates →
  base ≠ "USD"%string →
  (∀ e, (fetchFrankfurter (DoResponse resp) e w).1
        = Err (errors_New "unexpected base currency in response")
        ∧ cache (fetchFrankfurter (DoResponse resp) e w).2 = cache w
        ∧ heap (fetchFrankfurter (DoResponse resp) e w).2 = heap w)
  ∧ (∀ o, trip o = DoResponse resp →
          staleAt (cache w) (clock w + Z.of_N (wait1 o)) →
          (getRates o w).1 = Err (errors_New "unexpected base currency in response")
          ∧ cache (getRates o w).2 = cache w
          ∧ heap (getRates o w).2 = heap w).
Proof.
  intros Hst Hb Hne. split.
  - intros e. by rewrite (fetchFrankfurter_base_mismatch _ _ _ _ _ _ Hst Hb Hne).
  - intros o Ho Hs.
    destruct (getRates_stale o w Hs) as (w2 & Hc & Hh & _ & _ & _ & ->).
    rewrite Ho, (fetchFrankfurter_base_mismatch _ _ _ _ _ _ Hst Hb Hne). done.
Qed.

Lemma fetchFrankfurter_rejects_other_base_witness :
  let resp := {| StatusCode := 200; Status := "200 OK";
                 Body := Decoded "EUR" "2025-01-02" (Some sample.table) |} in
  (∀ e, (fetchFrankfurter (DoResponse resp) e sample.warm).1
        = Err (errors_New "unexpected base currency in response")
        ∧ cache (fetchFrankfurter (DoResponse resp) e sample.warm).2 = cache sample.warm
        ∧ heap (fetchFrankfurter (DoResponse resp) e sample.warm).2 = heap sample.warm)
  ∧ (∀ o, trip o = DoResponse resp →
          staleAt (cache sample.warm) (clock sample.warm + Z.of_N (wait1 o)) →
          (getRates o sample.warm).1
          = Err (errors_New "unexpected base currency in response")
          ∧ cache (getRates o sample.warm).2 = cache sample.warm
          ∧ heap (getRates o sample.warm).2 = heap sample.warm).
Proof.
  intros resp.
  apply (fetchFrankfurter_rejects_other_base resp "EUR" "2025-01-02"
           (Some sample.table) sample.warm).
  - reflexivity.
  - reflexivity.
  - discriminate.
Defined.

(** C8, as stated, fails in its second half: 204 No Content is a
    success status, and the fetcher stops at the status check with the
    status error all the same. *)
Lemma statusError_on_success_status :
  ¬ (∀ resp, statusError resp = None ↔ successStatus (StatusCode resp)).
Proof.
  intros H.
  destruct (H {| StatusCode := 204; Status := "204 No Content";
                 Body := DecodeError (library_error "EOF") |}) as [_ H204].
  unfold successStatus in H204. simpl in H204.
  assert (Hs : 200 ≤ 204 ≤ 299) by lia.
  specialize (H204 Hs). vm_compute in H204. discriminate.
Qed.

(** C8, amended. For every response whose status code is not 200 the
    fetcher fails with the error "frankfurter responded with status "
    followed by the response's status text, leaving the process state
    alone; it gets past the status check exactly when the code is 200,
    so the other 2xx codes are refused as well; and with code 200 and a
    body that decodes to base USD it returns the decoded payload with
    the time the round trip ended. *)
Theorem fetchFrankfurter_status_check resp :
  (StatusCode resp ≠ StatusOK →
   ∀ e w, (fetchFrankfurter (DoResponse resp) e w).1
          = Err (errors_New ("frankfurter responded with status " +:+ Status resp))
          ∧ cache (fetchFrankfurter (DoResponse resp) e w).2 = cache w
          ∧ heap (fetchFrankfurter (DoResponse resp) e w).2 = heap w)
  ∧ (statusError resp = None ↔ StatusCode resp = StatusOK)
  ∧ (StatusCode resp = StatusOK →
     ∀ date rates e w,
       Body resp = Decoded "USD" date rates →
       ∃ m, (fetchFrankfurter (DoResponse resp) e w).1
            = Ok ({| Base := "USD"; Date := date; Rates := m |},
                  clock w + Z.of_N e)).
Proof.
  split; [|split].
  - intros Hne e w. unfold fetchFrankfurter, fetchBody.
    by rewrite (statusError_other _ Hne).
  - split.
    + intros Hn. destruct (decide (StatusCode resp = StatusOK)) as [|Hne]; [done|].
      by rewrite (statusError_other _ Hne) in Hn.
    + apply statusError_OK.
  - intros Hst date rates e w Hb. unfold fetchFrankfurter, fetchBody.
    rewrite (statusError_OK _ Hst), Hb.
    rewrite bool_decide_false by (intros Hne; by apply Hne).
    destruct (decodeRates rates (heap (pass e w))) as [m h]. by exists m.
Qed.

Lemma fetchFrankfurter_status_check_witness :
  let resp := {| StatusCode := 503; Status := "503 Service Unavailable";
                 Body := DecodeError (library_error "EOF") |} in
  (fetchFrankfurter (DoResponse resp) 7 sample.warm).1
  = Err (errors_New "frankfurter responded with status 503 Service Unavailable")
  ∧ cache (fetchFrankfurter (DoResponse resp) 7 sample.warm).2 = cache sample.warm
  ∧ heap (fetchFrankfurter (DoResponse resp) 7 sample.warm).2 = heap sample.warm.
Proof.
  intros resp.
  apply (proj1 (fetchFrankfurter_status_check resp)).
  vm_compute. discriminate.
Defined.

(** ** The cache across calls *)

Section invariants.

(** A call writes to no map that was in the heap before it. *)
Lemma getRates_heap_frame o w l :
  is_Some (heap w !! l) → heap (getRates o w).2 !! l = heap w !! l.
Proof.
  intros Hl.
  destruct (getRates_outcomes o w)
    as [(p & w1 & _ & _ & Hh & _ & _ & _ & Hg)
       |[(t & e & w' & Hg & _ & Hh & _)
        |(t & p & at' & w3 & Hg & _ & _ & _ & _ & _ & _ & _ & Hfr & _)]];
    rewrite Hg; rewrite ?returnRates_eq; simpl.
  - rewrite Hh. apply lookup_insert_ne. intros <-.
    rewrite fresh_unused in Hl. by destruct Hl.
  - by rewrite Hh.
  - rewrite lookup_insert_ne; [by apply Hfr|]. intros <-.
    rewrite <- (Hfr _ Hl) in Hl. rewrite fresh_unused in Hl. by destruct Hl.
Qed.

(** A call keeps the cache, or replaces both fields by what the
    fetcher call it has just made returned. *)
Lemma getRates_cache_step o w :
  cache (getRates o w).2 = cache w
  ∨ ∃ t p at_,
      calls (getRates o w).2 = calls w ++ [{| issued := t; outcome := Ok (p, at_) |}]
      ∧ cache (getRates o w).2 = {| payload := Some p; fetchedAt := at_ |}
      ∧ Base p = "USD"%string
      ∧ ∀ l, Rates p = Some l → is_Some (heap (getRates o w).2 !! l).
Proof.
  destruct (getRates_outcomes o w)
    as [(p & w1 & _ & Hc & _ & _ & _ & _ & Hg)
       |[(t & e & w' & Hg & Hc & _)
        |(t & p & at' & w3 & Hg & Hc & Hk & _ & _ & _ & _ & HB & _ & Hal)]];
    rewrite Hg; rewrite ?returnRates_eq; simpl.
  - by left.
  - by left.
  - right. exists t, p, at'. repeat split; [done..|].
    intros l Hl. destruct (Hal l Hl) as [_ Hs].
    rewrite lookup_insert_ne; [done|]. intros <-.
    rewrite fresh_unused in Hs. by destruct Hs.
Qed.

Lemma getRates_calls_grow o w call :
  call ∈ calls w → call ∈ calls (getRates o w).2.
Proof.
  intros Hin.
  destruct (getRates_outcomes o w)
    as [(p & w1 & _ & _ & _ & Hk & _ & _ & Hg)
       |[(t & e & w' & Hg & _ & _ & _ & Hk & _)
        |(t & p & at' & w3 & Hg & _ & Hk & _)]];
    rewrite Hg; rewrite ?returnRates_eq; simpl; rewrite Hk;
    [done | apply elem_of_app; by left..].
Qed.

Lemma getRates_validated o w : validated w → validated (getRates o w).2.
Proof.
  intros Hv q Hq.
  destruct (getRates_cache_step o w) as [Hc|(t & p & at_ & Hk & Hc & HB & _)].
  - rewrite Hc in Hq |- *. destruct (Hv q Hq) as [HB (call & Hin & Hout)].
    split; [done|]. exists call. split; [by apply getRates_calls_grow | done].
  - rewrite Hc in Hq |- *. simpl in *. injection Hq as <-. split; [done|].
    eexists. rewrite Hk. split; [apply elem_of_app; right; by apply list_elem_of_singleton|].
    done.
Qed.

Lemma getRates_allocated o w : allocated w → allocated (getRates o w).2.
Proof.
  intros Ha q l Hq Hl.
  destruct (getRates_cache_step o w) as [Hc|(t & p & at_ & _ & Hc & _ & Hal)].
  - rewrite Hc in Hq. pose proof (Ha q l Hq Hl) as Hs.
    by rewrite getRates_heap_frame.
  - rewrite Hc in Hq. simpl in Hq. injection Hq as <-. by apply Hal.
Qed.

Lemma runCalls_snoc os o w :
  runCalls (os ++ [o]) w = (getRates o (runCalls os w)).2.
Proof. unfold runCalls. by rewrite foldl_app. Qed.

Lemma runCalls_validated os t0 : validated (runCalls os (initial t0)).
Proof.
  induction os as [|o os IH] using rev_ind.
  - intros p Hp. done.
  - rewrite runCalls_snoc. by apply getRates_validated.
Qed.

Lemma runCalls_allocated os t0 : allocated (runCalls os (initial t0)).
Proof.
  induction os as [|o os IH] using rev_ind.
  - intros p l Hp. done.
  - rewrite runCalls_snoc. by apply getRates_allocated.
Qed.

End invariants.

(** C9. In every state that calls of [getRates] reach from the empty
    cache, a snapshot that is present is the payload and time that a
    recorded, successful call of the fetcher returned, and its base is
    USD.  A further call either keeps both fields of the cache or sets
    both to what the successful fetcher call it has just made returned;
    and it writes to no map that was in the heap before, so a snapshot
    is replaced, never changed in place. *)
Theorem cache_holds_validated_snapshot t0 os :
  let w := runCalls os (initial t0) in
  (∀ p, payload (cache w) = Some p →
        Base p = "USD"%string
        ∧ ∃ call, call ∈ calls w ∧ outcome call = Ok (p, fetchedAt (cache w)))
  ∧ ∀ o,
      (cache (getRates o w).2 = cache w
       ∨ ∃ t p at_,
           calls (getRates o w).2
           = calls w ++ [{| issued := t; outcome := Ok (p, at_) |}]
           ∧ cache (getRates o w).2 = {| payload := Some p; fetchedAt := at_ |})
      ∧ (∀ l, is_Some (heap w !! l) → heap (getRates o w).2 !! l = heap w !! l).
Proof.
  intros w. split; [apply runCalls_validated|].
  intros o. split.
  - destruct (getRates_cache_step o w) as [Hc|(t & p & at_ & Hk & Hc & _)];
      [by left | right; by exists t, p, at_].
  - intros l. apply getRates_heap_frame.
Qed.




(** ** Properties of the interleaved machine *)

Lemma freshPayload_effect e w o w' :
  freshPayload e w = (o, w') →
  cache w' = cache w ∧ calls w' = calls w ∧ clock w ≤ clock w'
  ∧ match o with
    | Some p => ¬ staleAt (cache w) (clock w) ∧ payload (cache w) = Some p
    | None => staleAt (cache w) (clock w')
    end.
Proof.
  destruct o as [p|]; intros H.
  - apply freshPayload_Some in H as (Hp & -> & Hage). simpl in *.
    repeat split; try done; try lia.
    intros [Hs|Hs]; [congruence | lia].
  - apply freshPayload_None in H as (? & ? & ? & ? & ? & ?). done.
Qed.

Lemma returnRates_effect p w r w' :
  returnRates p w = (r, w') →
  cache w' = cache w ∧ calls w' = calls w ∧ clock w' = clock w.
Proof. rewrite returnRates_eq. by intros [= <- <-]. Qed.

Lemma advance_effect c mu w l mu' w' l' :
  advance c mu w l = Some (mu', w', l') → effect mu w l mu' w' l'.
Proof.
  destruct l; cbn -[freshPayload fetchFrankfurter returnRates returnCached].
  - unfold RLock. destruct (writer mu) eqn:Hw; [done|]. intros [= <- <- <-].
    apply Quiet; by constructor.
  - destruct (freshPayload (elapsed c) w) as [[p|] w1] eqn:Hf; intros [= <- <- <-];
      apply freshPayload_effect in Hf as (? & ? & ? & Hf).
    + destruct Hf as [? Hp]. apply Quiet; constructor; try done; intros _; by rewrite Hp.
    + apply Quiet; by constructor.
  - unfold returnCached. destruct (payload (cache w)) as [p|]; [|done]. simpl.
    destruct (returnRates p w) as [r w1] eqn:Hr. intros [= <- <- <-].
    apply returnRates_effect in Hr as (? & ? & ?). apply Quiet; constructor; first [done | lia].
  - unfold RUnlock. destruct (readers mu); [done|]. intros [= <- <- <-].
    apply Quiet; by constructor.
  - unfold RUnlock. destruct (readers mu); [done|]. intros [= <- <- <-].
    apply Quiet; by constructor.
  - unfold Lock. destruct (writer mu) eqn:Hw; [done|].
    destruct (readers mu); [|done]. intros [= <- <- <-]. by apply Acquire.
  - destruct (freshPayload (elapsed c) w) as [[p|] w1] eqn:Hf; intros [= <- <- <-];
      apply freshPayload_effect in Hf as (? & ? & ? & Hf).
    + destruct Hf as [? Hp]. apply Quiet; constructor; try done; intros _; by rewrite Hp.
    + apply Quiet; by constructor.
  - unfold returnCached. destruct (payload (cache w)) as [p|]; [|done]. simpl.
    destruct (returnRates p w) as [r w1] eqn:Hr. intros [= <- <- <-].
    apply returnRates_effect in Hr as (? & ? & ?). apply Quiet; constructor; first [done | lia].
  - destruct (fetchFrankfurter (upstream c) (elapsed c) w) as [[[p at_]|err] w1] eqn:Hf;
      intros [= <- <- <-];
      apply fetchFrankfurter_frame in Hf as (? & ? & ? & _ & Hr).
    + destruct Hr as (_ & Hat & _).
      apply (Fetched _ _ _ _ _ _ (Ok (p, at_))); first [done | lia].
    + apply (Fetched _ _ _ _ _ _ (Err err)); first [done | lia].
  - intros [= <- <- <-]. by apply (StoredPayload _ _ _ _ _ _ p at_).
  - intros [= <- <- <-]. by apply (StoredTime _ _ _ _ _ _ p at_).
  - destruct (returnRates p w) as [r0 w1] eqn:Hr. intros [= <- <- <-].
    apply returnRates_effect in Hr as (? & ? & ?). apply Quiet; constructor; first [done | lia].
  - unfold Unlock. destruct (writer mu) eqn:Hw; [|done]. intros [= <- <- <-].
    by apply (Release _ _ _ _ _ _ r).
  - done.
Qed.

Lemma cacheAfter_snoc c0 cs c :
  cacheAfter c0 (cs ++ [c])
  = match outcome c with
    | Ok (p, at_) => {| payload := Some p; fetchedAt := at_ |}
    | Err _ => cacheAfter c0 cs
    end.
Proof. unfold cacheAfter. by rewrite foldl_app. Qed.

Lemma spaced_snoc cs c :
  spaced cs →
  (∀ c1 p at_, last cs = Some c1 → outcome c1 = Ok (p, at_) →
               at_ + cacheTTL ≤ issued c) →
  spaced (cs ++ [c]).
Proof.
  intros Hsp Hlast i c1 c2 p at_ H1 H2 Hout.
  destruct (decide (S i < length cs)%nat) as [Hlt|Hge].
  - rewrite lookup_app_l in H1 by lia. rewrite lookup_app_l in H2 by lia.
    exact (Hsp i c1 c2 p at_ H1 H2 Hout).
  - assert (is_Some ((cs ++ [c]) !! S i)) as Hs by (by eexists).
    apply lookup_lt_is_Some in Hs. rewrite length_app in Hs. simpl in Hs.
    assert (S i = length cs) as Hi by lia.
    rewrite lookup_app_l in H1 by lia.
    rewrite lookup_app_r in H2 by lia. rewrite Hi, Nat.sub_diag in H2.
    simpl in H2. injection H2 as <-.
    apply (Hlast c1 p at_); [|done].
    rewrite last_lookup. rewrite <- Hi. simpl. done.
Qed.

Lemma try_step_Some c m m' :
  try_step c m = Some m' →
  ∃ l mu' w' l',
    goroutines m !! who c = Some l
    ∧ advance c (mu m) (world m) l = Some (mu', w', l')
    ∧ m' = {| world := w'; mu := mu'; goroutines := <[who c := l']> (goroutines m) |}.
Proof.
  unfold try_step. destruct (goroutines m !! who c) as [l|]; [|done]. simpl.
  destruct (advance c (mu m) (world m) l) as [[[mu' w'] l']|] eqn:Ha; [|done].
  simpl. intros H. injection H as <-. by exists l, mu', w', l'.
Qed.

Lemma lookup_update (gs : list pc) i l' j lj :
  <[i := l']> gs !! j = Some lj →
  (j = i ∧ lj = l') ∨ (j ≠ i ∧ gs !! j = Some lj).
Proof.
  intros H. apply list_lookup_insert_Some in H as [(-> & -> & _)|[Hne H]].
  - by left.
  - right. split; [congruence | done].
Qed.

Section preservation.

Variables (w0 : World) (m : Machine) (i : nat) (l l' : pc)
  (mu' : RWMutex) (w' : World).
Hypothesis HI : Inv w0 m.
Hypothesis Hl : goroutines m !! i = Some l.
Hypothesis He : effect (mu m) (world m) l mu' w' l'.

Let m' : Machine :=
  {| world := w'; mu := mu'; goroutines := <[i := l']> (goroutines m) |}.

Lemma old_or_new j lj :
  goroutines m' !! j = Some lj →
  (j = i ∧ lj = l') ∨ (j ≠ i ∧ goroutines m !! j = Some lj).
Proof. apply lookup_update. Qed.

(** While this goroutine holds the lock, no other does. *)
Lemma alone j lj :
  holdsLock l = true → goroutines m !! j = Some lj → holdsLock lj = true → j = i.
Proof. intros Hh Hj Hhj. by apply (inv_exclusive _ _ HI j i lj l). Qed.

Lemma none_storing :
  storing l = false → holdsLock l = true ∨ writer (mu m) = false →
  ∀ j lj, goroutines m !! j = Some lj → storing lj = false.
Proof.
  intros Hs Hh j lj Hj. destruct (storing lj) eqn:Hsj; [|done].
  assert (holdsLock lj = true) as Hhj by (by destruct lj).
  destruct Hh as [Hh|Hw].
  - assert (j = i) as -> by (by eapply alone). congruence.
  - rewrite (inv_unlocked _ _ HI Hw j lj Hj) in Hhj. done.
Qed.

Lemma clock_grows : clock (world m) ≤ clock w'.
Proof.
  destruct He as [HQ| -> | r -> | | | ]; try done; try lia. apply HQ.
Qed.

(** A step of a goroutine that does not hold the lock changes neither
    cache nor call record. *)
Lemma outside_lock :
  holdsLock l = false → cache w' = cache (world m) ∧ calls w' = calls (world m).
Proof.
  intros Hh.
  destruct He as [HQ| -> | r -> | r Hl1 | p a Hl1 | p a Hl1];
    try done; try (by rewrite Hl1 in Hh).
  split; apply HQ.
Qed.

(** A goroutine that comes to hold the lock by this step found it free. *)
Lemma newly_held :
  holdsLock l' = true → holdsLock l = true ∨ writer (mu m) = false.
Proof.
  intros Hh.
  destruct He as [HQ| _ _ _ Hw _ | r _ _ Hl1 _ | r Hl1 | p a Hl1 | p a Hl1];
    try (left; by rewrite Hl1).
  - left. by rewrite <- (q_holds _ _ _ _ _ _ HQ).
  - by right.
  - by rewrite Hl1 in Hh.
Qed.

(** The step leaves the write lock held, unless it is the release. *)
Lemma still_locked :
  writer mu' = false → writer (mu m) = false ∨ ∃ r, l = DeferUnlock r ∧ l' = Returned r.
Proof.
  intros Hw.
  destruct He as [HQ| _ _ _ _ Hw' | r _ Hl1 Hl2 _ | r _ _ _ -> | p a _ _ _ _ _ -> | p a _ _ _ _ _ ->];
    try (by left).
  - left. by rewrite <- (q_writer _ _ _ _ _ _ HQ).
  - congruence.
  - right. by exists r.
Qed.

Lemma keep_unlocked :
  writer mu' = false → ∀ j lj, goroutines m' !! j = Some lj → holdsLock lj = false.
Proof.
  pose proof alone as Halone.
  intros Hw j lj Hj. destruct (holdsLock lj) eqn:Hh; [exfalso|done].
  destruct (still_locked Hw) as [Hw0|(r & Hl1 & Hl2)].
  - apply old_or_new in Hj as [[-> ->]|[Hne Hj]].
    + destruct (newly_held Hh) as [Hh0|_].
      * by rewrite (inv_unlocked _ _ HI Hw0 i l Hl) in Hh0.
      * destruct He as [HQ| _ _ _ _ Hw' | r _ _ Hl2 _ | r Hl1 | p a Hl1 | p a Hl1];
          try (rewrite Hl1 in Hl; by pose proof (inv_unlocked _ _ HI Hw0 i _ Hl)).
        -- rewrite (q_holds _ _ _ _ _ _ HQ) in Hh.
           by rewrite (inv_unlocked _ _ HI Hw0 i l Hl) in Hh.
        -- congruence.
        -- by rewrite Hl2 in Hh.
    + by rewrite (inv_unlocked _ _ HI Hw0 j lj Hj) in Hh.
  - apply old_or_new in Hj as [[-> ->]|[Hne Hj]].
    + by rewrite Hl2 in Hh.
    + apply Hne. eapply Halone; [by rewrite Hl1 | done..].
Qed.

Lemma keep_exclusive j k lj lk :
  goroutines m' !! j = Some lj → goroutines m' !! k = Some lk →
  holdsLock lj = true → holdsLock lk = true → j = k.
Proof.
  intros Hj Hk Hhj Hhk.
  apply old_or_new in Hj as [[-> ->]|[Hnj Hj]];
    apply old_or_new in Hk as [[-> ->]|[Hnk Hk]]; try done.
  - destruct (newly_held Hhj) as [Hh|Hw].
    + symmetry. by eapply alone.
    + by rewrite (inv_unlocked _ _ HI Hw k lk Hk) in Hhk.
  - destruct (newly_held Hhk) as [Hh|Hw].
    + by eapply alone.
    + by rewrite (inv_unlocked _ _ HI Hw j lj Hj) in Hhj.
  - by apply (inv_exclusive _ _ HI j k lj lk).
Qed.

Lemma calls_grow :
  calls w' = calls (world m)
  ∨ ∃ r, l = L101
         ∧ calls w' = calls (world m) ++ [{| issued := clock (world m); outcome := r |}]
         ∧ cache w' = cache (world m)
         ∧ match r with
           | Ok (p, at_) => l' = L106 p at_ ∧ at_ = clock w'
           | Err e => l' = DeferUnlock (Err e)
           end.
Proof.
  destruct He as [HQ| -> | r -> | r | | ]; try (by left).
  - left. apply HQ.
  - right. by exists r.
Qed.

Lemma keep_times c :
  c ∈ calls w' →
  issued c ≤ clock w' ∧ ∀ p at_, outcome c = Ok (p, at_) → at_ ≤ clock w'.
Proof.
  pose proof clock_grows as Hclk. intros Hin.
  assert (Hold : c ∈ calls (world m) →
      issued c ≤ clock w' ∧ ∀ p at_, outcome c = Ok (p, at_) → at_ ≤ clock w').
  { intros Hc. destruct (inv_times _ _ HI c Hc) as [H1 H2]. split; [lia|].
    intros p at_ Hout. specialize (H2 p at_ Hout). lia. }
  destruct calls_grow as [Heq|(r & _ & Heq & _ & Hr)]; rewrite Heq in Hin;
    [by apply Hold|].
  apply elem_of_app in Hin as [Hin|Hin]; [by apply Hold|].
  apply list_elem_of_singleton in Hin as ->. simpl. split; [done|].
  intros p at_ ->. destruct Hr as [_ ->]. lia.
Qed.

(** Another goroutine that holds the lock cannot exist beside a step
    inside the lock. *)
Lemma other_holder j lj :
  j ≠ i → goroutines m !! j = Some lj → holdsLock lj = true →
  cache w' = cache (world m) ∧ calls w' = calls (world m).
Proof.
  intros Hne Hj Hh. apply outside_lock.
  destruct (holdsLock l) eqn:Hhl; [|done].
  exfalso. apply Hne. by eapply alone.
Qed.

(** The only way to line 106 is the fetcher's successful return. *)
Lemma arrives_at_L106 p at_ :
  l' = L106 p at_ →
  l = L101
  ∧ calls w' = calls (world m)
               ++ [{| issued := clock (world m); outcome := Ok (p, at_) |}]
  ∧ cache w' = cache (world m).
Proof.
  intros Hl'.
  destruct He as [HQ| _ _ Hl2 _ _ | r _ _ Hl2 _ | r Hl1 Hc Hk _ _ Hr | q a _ Hl2 | q a _ Hl2];
    try (by rewrite Hl2 in Hl').
  - destruct (q_plain _ _ _ _ _ _ HQ) as (_ & Hs & _). by rewrite Hl' in Hs.
  - destruct r as [[q a]|e]; [|by rewrite Hr in Hl'].
    destruct Hr as [Hr _]. rewrite Hl' in Hr. injection Hr as <- <-. done.
Qed.

Lemma keep_pending j p at_ :
  goroutines m' !! j = Some (L106 p at_) →
  ∃ cs t, calls w' = cs ++ [{| issued := t; outcome := Ok (p, at_) |}]
          ∧ cache w' = cacheAfter (cache w0) cs.
Proof.
  intros Hj. apply old_or_new in Hj as [[-> Hl']|[Hne Hj]].
  - destruct (arrives_at_L106 p at_) as (Hl1 & Hk & Hc); [done|].
    exists (calls (world m)), (clock (world m)). split; [done|].
    rewrite Hc. apply (inv_stored _ _ HI).
    apply none_storing; [by rewrite Hl1 | left; by rewrite Hl1].
  - destruct (inv_pending _ _ HI j p at_ Hj) as (cs & t & Hk & Hc).
    destruct (other_holder j _ Hne Hj eq_refl) as [Hc' Hk'].
    exists cs, t. by rewrite Hc', Hk'.
Qed.

Lemma keep_halfway j p at_ :
  goroutines m' !! j = Some (L107 p at_) →
  ∃ cs t, calls w' = cs ++ [{| issued := t; outcome := Ok (p, at_) |}]
          ∧ payload (cache w') = Some p.
Proof.
  intros Hj. apply old_or_new in Hj as [[-> Hl']|[Hne Hj]].
  - destruct He as [HQ| _ _ Hl2 _ _ | r _ _ Hl2 _ | r _ _ _ _ _ Hr | q a Hl1 Hl2 Hc Hk _ _ | q a _ Hl2];
      try (by rewrite Hl2 in Hl').
    + destruct (q_plain _ _ _ _ _ _ HQ) as (_ & Hs & _). by rewrite <- Hl' in Hs.
    + destruct r as [[q a]|e]; [destruct Hr as [Hr _]|]; by rewrite Hr in Hl'.
    + rewrite Hl2 in Hl'. injection Hl' as <- <-. rewrite Hl1 in Hl.
      destruct (inv_pending _ _ HI i p at_ Hl) as (cs & t & Hk' & _).
      exists cs, t. by rewrite Hk, Hc.
  - destruct (inv_halfway _ _ HI j p at_ Hj) as (cs & t & Hk & Hc).
    destruct (other_holder j _ Hne Hj eq_refl) as [Hc' Hk'].
    exists cs, t. by rewrite Hc', Hk'.
Qed.

(** A payload, once stored, is never taken away. *)
Lemma payload_stays :
  is_Some (payload (cache (world m))) → is_Some (payload (cache w')).
Proof.
  intros Hp.
  destruct He as [HQ| -> | r -> | r _ Hc | q a _ _ Hc | q a _ _ Hc]; try done;
    rewrite ?Hc; try done.
  by rewrite (q_cache _ _ _ _ _ _ HQ).
Qed.

Lemma keep_payload j lj :
  goroutines m' !! j = Some lj → returning lj = true →
  is_Some (payload (cache w')).
Proof.
  intros Hj Hr. apply payload_stays.
  apply old_or_new in Hj as [[-> ->]|[Hne Hj]]; [|by eapply (inv_payload _ _ HI)].
  destruct He as [HQ| _ _ Hl2 | r _ _ Hl2 | r _ _ _ _ _ Hr' | q a _ Hl2 | q a _ Hl2];
    try (by rewrite Hl2 in Hr).
  - by apply (q_payload _ _ _ _ _ _ HQ).
  - destruct r as [[q a]|e]; [destruct Hr' as [Hr' _]|]; by rewrite Hr' in Hr.
Qed.

Lemma keep_stored :
  (∀ j lj, goroutines m' !! j = Some lj → storing lj = false) →
  cache w' = cacheAfter (cache w0) (calls w').
Proof.
  pose proof none_storing as Hnone.
  intros Hnew.
  assert (Hl' : storing l' = false).
  { apply (Hnew i). unfold m'. simpl. apply list_lookup_insert_eq.
    by eapply lookup_lt_Some. }
  assert (Hold : storing l = false →
                 cache (world m) = cacheAfter (cache w0) (calls (world m))).
  { intros Hs. apply (inv_stored _ _ HI). intros j lj Hj.
    destruct (decide (j = i)) as [->|Hne]; [congruence|].
    apply (Hnew j). unfold m'. simpl. by rewrite list_lookup_insert_ne. }
  destruct He as [HQ| -> Hl1 _ _ _ | r -> Hl1 _ _ | r Hl1 Hc Hk _ _ Hr | q a _ Hl2 | q a Hl1 _ Hc Hk _ _].
  - rewrite (q_cache _ _ _ _ _ _ HQ), (q_calls _ _ _ _ _ _ HQ). apply Hold.
    apply (q_plain _ _ _ _ _ _ HQ).
  - apply Hold. by rewrite Hl1.
  - apply Hold. by rewrite Hl1.
  - rewrite Hc, Hk, cacheAfter_snoc. simpl.
    destruct r as [[q a]|e]; [|apply Hold; by rewrite Hl1].
    destruct Hr as [Hr _]. by rewrite Hr in Hl'.
  - by rewrite Hl2 in Hl'.
  - rewrite Hl1 in Hl. destruct (inv_halfway _ _ HI i q a Hl) as (cs & t & Hk' & Hp).
    by rewrite Hc, Hk, Hk', cacheAfter_snoc, Hp.
Qed.

Lemma keep_fetching j :
  goroutines m' !! j = Some L101 → staleAt (cache w') (clock w').
Proof.
  pose proof clock_grows as Hclk.
  intros Hj. apply old_or_new in Hj as [[-> Hl']|[Hne Hj]].
  - destruct He as [HQ| _ _ Hl2 | r _ _ Hl2 | r _ _ _ _ _ Hr | q a _ Hl2 | q a _ Hl2];
      try (by rewrite Hl2 in Hl').
    + rewrite (q_cache _ _ _ _ _ _ HQ). by apply (q_stale _ _ _ _ _ _ HQ).
    + destruct r as [[q a]|e]; [destruct Hr as [Hr _]|]; by rewrite Hr in Hl'.
  - pose proof (inv_fetching _ _ HI j Hj) as Hst.
    destruct (other_holder j _ Hne Hj eq_refl) as [Hc' _]. rewrite Hc'.
    by eapply staleAt_later.
Qed.

Lemma keep_spaced : spaced (calls w').
Proof.
  pose proof none_storing as Hnone.
  destruct calls_grow as [->|(r & Hl1 & -> & _)]; [apply (inv_spaced _ _ HI)|].
  apply spaced_snoc; [apply (inv_spaced _ _ HI)|].
  intros c1 p at_ Hlast Hout. simpl.
  assert (Hc : cache (world m) = cacheAfter (cache w0) (calls (world m))).
  { apply (inv_stored _ _ HI). apply Hnone; [by rewrite Hl1 | left; by rewrite Hl1]. }
  rewrite Hl1 in Hl. pose proof (inv_fetching _ _ HI i Hl) as Hst.
  apply last_Some in Hlast as [cs Hcs]. rewrite Hcs, cacheAfter_snoc, Hout in Hc.
  rewrite Hc in Hst. destruct Hst as [Hst|Hst]; [done|]. simpl in Hst. lia.
Qed.

Lemma keep_early :
  staleAt (cache w0) (clock w0) →
  calls w' = [] →
  ∀ j lj, goroutines m' !! j = Some lj → early lj = true.
Proof.
  intros H0 Hnil.
  assert (Hk : calls (world m) = []).
  { destruct calls_grow as [Heq|(r & _ & Heq & _)]; [congruence|].
    rewrite Heq in Hnil. by apply app_nil in Hnil as [_ ?]. }
  pose proof (inv_early _ _ HI H0 Hk) as Hold.
  intros j lj Hj. apply old_or_new in Hj as [[-> ->]|[Hne Hj]]; [|by eapply Hold].
  pose proof (Hold i l Hl) as Hel.
  assert (Hc : cache (world m) = cache w0).
  { rewrite (inv_stored _ _ HI); [by rewrite Hk|].
    intros j lj Hj. specialize (Hold j lj Hj). by destruct lj. }
  destruct (early l') eqn:Hel'; [done|exfalso].
  destruct He as [HQ| _ _ Hl' _ _ | r _ Hl1 _ _ | r _ _ Hk' _ _ _ | q a Hl1 | q a Hl1];
    try (by rewrite Hl1 in Hel).
  - apply (q_fresh _ _ _ _ _ _ HQ Hel' Hel). rewrite Hc.
    eapply staleAt_later; [done|]. apply (inv_clock _ _ HI).
  - by rewrite Hl' in Hel'.
  - rewrite Hk' in Hnil. by apply app_nil in Hnil as [_ ?].
Qed.

Lemma effect_inv : Inv w0 m'.
Proof.
  pose proof clock_grows as Hclk.
  constructor.
  - apply keep_unlocked.
  - apply keep_exclusive.
  - pose proof (inv_clock _ _ HI). simpl. lia.
  - apply keep_times.
  - apply keep_pending.
  - apply keep_halfway.
  - apply keep_payload.
  - apply keep_stored.
  - apply keep_fetching.
  - apply keep_spaced.
  - apply keep_early.
Qed.

End preservation.

Lemma step_inv w0 c m : Inv w0 m → Inv w0 (step c m).
Proof.
  intros HI. unfold step. destruct (try_step c m) as [m'|] eqn:Hs; [|done].
  apply try_step_Some in Hs as (l & mu' & w' & l' & Hl & Ha & ->). simpl.
  apply advance_effect in Ha. by eapply effect_inv.
Qed.

Lemma run_inv w0 cs m : Inv w0 m → Inv w0 (run cs m).
Proof.
  revert m. induction cs as [|c cs IH]; intros m HI; [done|].
  simpl. apply IH. by apply step_inv.
Qed.

Lemma start_inv n w0 : calls w0 = [] → Inv w0 (start n w0).
Proof.
  intros Hk.
  assert (Hgs : ∀ i l, goroutines (start n w0) !! i = Some l → l = L88).
  { intros i l Hi. simpl in Hi. by apply lookup_replicate in Hi as [-> _]. }
  constructor; simpl.
  - intros _ i l Hi. by rewrite (Hgs i l Hi).
  - intros i j li lj Hi _ Hh. by rewrite (Hgs i li Hi) in Hh.
  - lia.
  - intros c. rewrite Hk. by intros ?%elem_of_nil.
  - intros i p at_ Hi. by apply Hgs in Hi.
  - intros i p at_ Hi. by apply Hgs in Hi.
  - intros i l Hi Hr. by rewrite (Hgs i l Hi) in Hr.
  - intros _. by rewrite Hk.
  - intros i Hi. by apply Hgs in Hi.
  - rewrite Hk. intros i c1 c2 p at_ H1. done.
  - intros _ _ i l Hi. by rewrite (Hgs i l Hi).
Qed.


Lemma returnCached_Some w p :
  payload (cache w) = Some p → returnCached w = Some (returnRates p w).
Proof. intros Hp. unfold returnCached. by rewrite Hp. Qed.

(** The dereference of [cache.payload] at lines 91 and 98 finds a
    payload: a goroutine that got there is not left without a step. *)
Lemma returnCached_defined w0 m i l :
  Inv w0 m → goroutines m !! i = Some l → returning l = true →
  is_Some (returnCached (world m)).
Proof.
  intros HI Hi Hr. destruct (inv_payload _ _ HI i l Hi Hr) as [p Hp].
  rewrite (returnCached_Some _ p Hp). by eexists.
Qed.

Lemma step_at c m l mu' w' l' :
  goroutines m !! who c = Some l →
  advance c (mu m) (world m) l = Some (mu', w', l') →
  step c m = {| world := w'; mu := mu'; goroutines := <[who c := l']> (goroutines m) |}.
Proof. intros Hl Ha. unfold step, try_step. rewrite Hl. simpl. by rewrite Ha. Qed.

Lemma step_returned c m r :
  goroutines m !! who c = Some (Returned r) → step c m = m.
Proof. intros Hl. unfold step, try_step. by rewrite Hl. Qed.

Lemma run_cons c cs m : run (c :: cs) m = run cs (step c m).
Proof. done. Qed.

Lemma run_returned cs w mu r :
  Forall (λ c, who c = 0%nat) cs →
  run cs {| world := w; mu := mu; goroutines := [Returned r] |}
  = {| world := w; mu := mu; goroutines := [Returned r] |}.
Proof.
  induction 1 as [|c cs Hc _ IH]; [done|].
  rewrite run_cons, (step_returned _ _ r); [done|]. by rewrite Hc.
Qed.

(** The two assignments of lines 106 and 107, one after the other. *)
Lemma store_in_two p at_ w :
  set_cache {| payload := payload (cache (set_cache {| payload := Some p;
                                                       fetchedAt := fetchedAt (cache w) |} w));
               fetchedAt := at_ |}
            (set_cache {| payload := Some p; fetchedAt := fetchedAt (cache w) |} w)
  = store p at_ w.
Proof. reflexivity. Qed.

Ltac solo_step H :=
  rewrite run_cons;
  erewrite step_at;
    [|reflexivity
     |cbn [advance who elapsed upstream world mu]; rewrite ?H; reflexivity];
  cbn [who elapsed upstream world mu goroutines list_insert insert].

(** One goroutine run alone does what the sequential [getRates] does,
    and leaves the mutex unlocked. *)
Lemma solo_getRates o w :
  run (solo o) (start 1 w)
  = {| world := (getRates o w).2; mu := unlocked;
       goroutines := [Returned (getRates o w).1] |}.
Proof.
  unfold solo, start, getRates. cbn [replicate].
  solo_step I.
  destruct (freshPayload (wait1 o) w) as [[p|] w1] eqn:H1.
  - solo_step H1.
    assert (Hp : returnCached w1 = Some (returnRates p w1)).
    { apply returnCached_Some. by apply freshPayload_Some in H1 as (? & -> & _). }
    destruct (returnRates p w1) as [r w2] eqn:H2.
    solo_step Hp. solo_step I.
    apply run_returned. by repeat constructor.
  - solo_step H1. solo_step I. solo_step I.
    destruct (freshPayload (wait2 o) w1) as [[p|] w2] eqn:H2.
    + solo_step H2.
      assert (Hp : returnCached w2 = Some (returnRates p w2)).
      { apply returnCached_Some. by apply freshPayload_Some in H2 as (? & -> & _). }
      destruct (returnRates p w2) as [r w3] eqn:H3.
      solo_step Hp. solo_step I.
      apply run_returned. by repeat constructor.
    + solo_step H2.
      destruct (fetchFrankfurter (trip o) (wait3 o) w2) as [[[p at_]|err] w3] eqn:H3.
      * solo_step H3. solo_step I. solo_step I. rewrite store_in_two.
        destruct (returnRates p (store p at_ w3)) as [r w4] eqn:H4.
        solo_step H4. solo_step I. done.
      * solo_step H3. solo_step I.
        apply run_returned. by repeat constructor.
Qed.










Lemma countReaders_cons l gs :
  countReaders (l :: gs) = ((if holdsRLock l then 1 else 0) + countReaders gs)%nat.
Proof.
  unfold countReaders. rewrite filter_cons. by destruct (holdsRLock l).
Qed.

Lemma countReaders_update gs i l l' :
  gs !! i = Some l →
  (countReaders (<[i := l']> gs) + (if holdsRLock l then 1 else 0)
   = countReaders gs + (if holdsRLock l' then 1 else 0))%nat.
Proof.
  revert i. induction gs as [|g gs IH]; intros i Hi; [done|].
  destruct i as [|i]; simpl in *.
  - injection Hi as ->. rewrite !countReaders_cons. lia.
  - rewrite !countReaders_cons. specialize (IH i Hi). lia.
Qed.

Lemma countReaders_replicate n : countReaders (replicate n L88) = 0%nat.
Proof. induction n as [|n IH]; [done|]. simpl. by rewrite countReaders_cons. Qed.

(** A goroutine that holds a read lock is counted. *)
Lemma countReaders_pos gs i l :
  gs !! i = Some l → holdsRLock l = true → (0 < countReaders gs)%nat.
Proof.
  revert i. induction gs as [|g gs IH]; intros i Hi Hr; [done|].
  rewrite countReaders_cons. destruct i as [|i]; simpl in Hi.
  - injection Hi as ->. rewrite Hr. lia.
  - specialize (IH i Hi Hr). lia.
Qed.

(** The lock operations of a step, counted. *)
Lemma advance_locks c mu w l mu' w' l' :
  advance c mu w l = Some (mu', w', l') →
  (writer mu = true → readers mu = 0%nat) →
  (readers mu' + (if holdsRLock l then 1 else 0)
   = readers mu + (if holdsRLock l' then 1 else 0))%nat
  ∧ (writer mu' = true → readers mu' = 0%nat).
Proof.
  intros Ha Hap.
  destruct l; cbn -[freshPayload fetchFrankfurter returnRates returnCached] in Ha.
  - unfold RLock in Ha. destruct (writer mu) eqn:Hw; [done|].
    injection Ha as <- <- <-. simpl. split; [lia | done].
  - destruct (freshPayload (elapsed c) w) as [[p|] w1];
      injection Ha as <- <- <-; simpl; split; first [lia | done].
  - destruct (returnCached w) as [[r w1]|]; [|done].
    injection Ha as <- <- <-. simpl. split; [lia | done].
  - unfold RUnlock in Ha. destruct (readers mu) as [|k] eqn:Hk; [done|].
    injection Ha as <- <- <-. simpl. split; [lia|].
    intros Hw. specialize (Hap Hw). lia.
  - unfold RUnlock in Ha. destruct (readers mu) as [|k] eqn:Hk; [done|].
    injection Ha as <- <- <-. simpl. split; [lia|].
    intros Hw. specialize (Hap Hw). lia.
  - unfold Lock in Ha. destruct (writer mu) eqn:Hw; [done|].
    destruct (readers mu) as [|k] eqn:Hk; [|done].
    injection Ha as <- <- <-. simpl. split; [lia | done].
  - destruct (freshPayload (elapsed c) w) as [[p|] w1];
      injection Ha as <- <- <-; simpl; split; first [lia | done].
  - destruct (returnCached w) as [[r w1]|]; [|done].
    injection Ha as <- <- <-. simpl. split; [lia | done].
  - destruct (fetchFrankfurter (upstream c) (elapsed c) w) as [[[p at_]|err] w1];
      injection Ha as <- <- <-; simpl; split; first [lia | done].
  - injection Ha as <- <- <-. simpl. split; [lia | done].
  - injection Ha as <- <- <-. simpl. split; [lia | done].
  - destruct (returnRates p w) as [r0 w1].
    injection Ha as <- <- <-. simpl. split; [lia | done].
  - unfold Unlock in Ha. destruct (writer mu) eqn:Hw; [|done].
    injection Ha as <- <- <-. simpl. split; [lia | done].
  - done.
Qed.

(** Where the values that a goroutine returns come from: lines 91, 98
    and 109 read [cache.fetchedAt]; line 103 returns the fetcher's
    error. *)
Lemma advance_result c mu w l mu' w' l' rates at_ :
  advance c mu w l = Some (mu', w', l') →
  resultOf l' = Some (Ok (rates, at_)) →
  resultOf l = Some (Ok (rates, at_))
  ∨ ((returning l = true ∨ ∃ p, l = L109 p) ∧ at_ = fetchedAt (cache w)).
Proof.
  intros Ha Hr.
  destruct l; cbn -[freshPayload fetchFrankfurter returnRates returnCached] in Ha.
  - unfold RLock in Ha. destruct (writer mu); [done|]. by injection Ha as <- <- <-.
  - destruct (freshPayload (elapsed c) w) as [[p|] w1]; by injection Ha as <- <- <-.
  - unfold returnCached in Ha. destruct (payload (cache w)) as [p|]; [|done].
    cbn -[returnRates] in Ha. rewrite returnRates_eq in Ha. injection Ha as <- <- <-.
    simpl in Hr. injection Hr as <- <-. right. split; [by left | done].
  - unfold RUnlock in Ha. destruct (readers mu); [done|].
    injection Ha as <- <- <-. by left.
  - unfold RUnlock in Ha. destruct (readers mu); [done|]. by injection Ha as <- <- <-.
  - unfold Lock in Ha. destruct (writer mu); [done|].
    destruct (readers mu); [|done]. by injection Ha as <- <- <-.
  - destruct (freshPayload (elapsed c) w) as [[p|] w1]; by injection Ha as <- <- <-.
  - unfold returnCached in Ha. destruct (payload (cache w)) as [p|]; [|done].
    cbn -[returnRates] in Ha. rewrite returnRates_eq in Ha. injection Ha as <- <- <-.
    simpl in Hr. injection Hr as <- <-. right. split; [by left | done].
  - destruct (fetchFrankfurter (upstream c) (elapsed c) w) as [[[p a]|err] w1];
      by injection Ha as <- <- <-.
  - by injection Ha as <- <- <-.
  - by injection Ha as <- <- <-.
  - rewrite returnRates_eq in Ha. injection Ha as <- <- <-.
    simpl in Hr. injection Hr as <- <-. right. split; [right; by eexists | done].
  - unfold Unlock in Ha. destruct (writer mu); [|done].
    injection Ha as <- <- <-. by left.
  - done.
Qed.

(** A goroutine comes to return the cached snapshot from a test that
    found it fresh. *)
Lemma advance_returning c mu w l mu' w' l' :
  advance c mu w l = Some (mu', w', l') → returning l' = true →
  (l = L89 ∨ l = L97) ∧ ¬ staleAt (cache w) (clock w).
Proof.
  intros Ha Hr.
  destruct l; cbn -[freshPayload fetchFrankfurter returnRates returnCached] in Ha.
  - unfold RLock in Ha. destruct (writer mu); [done|]. by injection Ha as <- <- <-.
  - destruct (freshPayload (elapsed c) w) as [[p|] w1] eqn:Hf;
      injection Ha as <- <- <-; [|done].
    apply freshPayload_effect in Hf as (_ & _ & _ & Hf & _). split; [by left | done].
  - destruct (returnCached w) as [[r w1]|]; [|done]. by injection Ha as <- <- <-.
  - unfold RUnlock in Ha. destruct (readers mu); [done|]. by injection Ha as <- <- <-.
  - unfold RUnlock in Ha. destruct (readers mu); [done|]. by injection Ha as <- <- <-.
  - unfold Lock in Ha. destruct (writer mu); [done|].
    destruct (readers mu); [|done]. by injection Ha as <- <- <-.
  - destruct (freshPayload (elapsed c) w) as [[p|] w1] eqn:Hf;
      injection Ha as <- <- <-; [|done].
    apply freshPayload_effect in Hf as (_ & _ & _ & Hf & _). split; [by right | done].
  - destruct (returnCached w) as [[r w1]|]; [|done]. by injection Ha as <- <- <-.
  - destruct (fetchFrankfurter (upstream c) (elapsed c) w) as [[[p a]|err] w1];
      by injection Ha as <- <- <-.
  - by injection Ha as <- <- <-.
  - by injection Ha as <- <- <-.
  - destruct (returnRates p w) as [r0 w1]. by injection Ha as <- <- <-.
  - unfold Unlock in Ha. destruct (writer mu); [|done]. by injection Ha as <- <- <-.
  - done.
Qed.

(** Line 109 is reached from line 107 only. *)
Lemma advance_L109 c mu w l mu' w' p :
  advance c mu w l = Some (mu', w', L109 p) → ∃ at_, l = L107 p at_.
Proof.
  intros Ha.
  destruct l; cbn -[freshPayload fetchFrankfurter returnRates returnCached] in Ha.
  - unfold RLock in Ha. destruct (writer mu); [done|]. by injection Ha.
  - destruct (freshPayload (elapsed c) w) as [[q|] w1]; by injection Ha.
  - destruct (returnCached w) as [[r w1]|]; [|done]. by injection Ha.
  - unfold RUnlock in Ha. destruct (readers mu); [done|]. by injection Ha.
  - unfold RUnlock in Ha. destruct (readers mu); [done|]. by injection Ha.
  - unfold Lock in Ha. destruct (writer mu); [done|].
    destruct (readers mu); [|done]. by injection Ha.
  - destruct (freshPayload (elapsed c) w) as [[q|] w1]; by injection Ha.
  - destruct (returnCached w) as [[r w1]|]; [|done]. by injection Ha.
  - destruct (fetchFrankfurter (upstream c) (elapsed c) w) as [[[q a]|err] w1];
      by injection Ha.
  - by injection Ha.
  - injection Ha as _ _ <-. by eexists.
  - destruct (returnRates p0 w) as [r0 w1]. by injection Ha.
  - unfold Unlock in Ha. destruct (writer mu); [|done]. by injection Ha.
  - done.
Qed.

Lemma fetchedIn_app cs k at_ : fetchedIn cs at_ → fetchedIn (cs ++ k) at_.
Proof.
  intros (c & p & Hc & Ho). exists c, p. split; [|done].
  apply elem_of_app. by left.
Qed.

(** The cache that a series of invocations leaves holds the time of the
    last one that succeeded; with none, it is the cache as it was. *)
Lemma cacheAfter_fetchedIn c0 cs at_ :
  fetchedIn cs at_ → fetchedIn cs (fetchedAt (cacheAfter c0 cs)).
Proof.
  revert at_. induction cs as [|c cs IH] using rev_ind; intros at_ (c1 & p & Hc & Ho).
  - by apply elem_of_nil in Hc.
  - rewrite cacheAfter_snoc. destruct (outcome c) as [[q a]|err] eqn:Hoc.
    + exists c, q. split; [|done]. apply elem_of_app. right. by apply list_elem_of_singleton.
    + apply fetchedIn_app. apply (IH at_). exists c1, p. split; [|done].
      apply elem_of_app in Hc as [Hc|Hc]; [done|].
      apply list_elem_of_singleton in Hc as ->. congruence.
Qed.

Lemma cacheAfter_none c0 cs :
  (∃ at_, fetchedIn cs at_) ∨ cacheAfter c0 cs = c0.
Proof.
  induction cs as [|c cs IH] using rev_ind; [by right|].
  destruct IH as [[at_ IH]|IH].
  - left. exists at_. by apply fetchedIn_app.
  - rewrite cacheAfter_snoc. destruct (outcome c) as [[q a]|err] eqn:Hoc; [|by right].
    left. exists a, c, q. split; [|done].
    apply elem_of_app. right. by apply list_elem_of_singleton.
Qed.

Lemma storing_holdsLock l : storing l = true → holdsLock l = true.
Proof. by destruct l. Qed.

(** While a goroutine holds a read lock, or the write lock without
    being between the two assignments, the cache is whole: it holds
    what the last successful invocation returned. *)
Lemma cache_whole w0 m i l :
  Inv w0 m → Served w0 m → goroutines m !! i = Some l →
  holdsRLock l = true ∨ (holdsLock l = true ∧ storing l = false) →
  cache (world m) = cacheAfter (cache w0) (calls (world m)).
Proof.
  intros HI HS Hi Hh. apply (inv_stored _ _ HI). intros j lj Hj.
  destruct (storing lj) eqn:Hs; [exfalso|done].
  pose proof (storing_holdsLock _ Hs) as Hhj.
  destruct Hh as [Hr|[Hw Hn]].
  - pose proof (countReaders_pos _ _ _ Hi Hr) as Hpos.
    rewrite <- (sv_readers _ _ HS) in Hpos.
    destruct (writer (mu m)) eqn:Hwr.
    + pose proof (sv_apart _ _ HS Hwr). lia.
    + rewrite (inv_unlocked _ _ HI Hwr j lj Hj) in Hhj. done.
  - assert (i = j) as -> by (by eapply (inv_exclusive _ _ HI)).
    congruence.
Qed.

(** The time in a whole cache, when some invocation of the run has
    succeeded, is the time of one that has. *)
Lemma cached_time_fetched w0 m i l :
  Inv w0 m → Served w0 m → goroutines m !! i = Some l →
  holdsRLock l = true ∨ (holdsLock l = true ∧ storing l = false) →
  (∃ at_, fetchedIn (calls (world m)) at_) →
  fetchedIn (calls (world m)) (fetchedAt (cache (world m))).
Proof.
  intros HI HS Hi Hh [at_ Hf].
  rewrite (cache_whole w0 m i l HI HS Hi Hh) at 1.
  by eapply cacheAfter_fetchedIn.
Qed.

(** A test in a run that began without a fresh snapshot finds one only
    after an invocation has succeeded. *)
Lemma fresh_after_fetch w0 m i l :
  Inv w0 m → Served w0 m → goroutines m !! i = Some l →
  l = L89 ∨ l = L97 →
  staleAt (cache w0) (clock w0) →
  ¬ staleAt (cache (world m)) (clock (world m)) →
  ∃ at_, fetchedIn (calls (world m)) at_.
Proof.
  intros HI HS Hi Hl H0 Hfresh.
  destruct (cacheAfter_none (cache w0) (calls (world m))) as [Hf|Hn]; [done|].
  exfalso. apply Hfresh.
  rewrite (cache_whole w0 m i l HI HS Hi), Hn.
  - apply (staleAt_later _ _ _ H0), (inv_clock _ _ HI).
  - destruct Hl as [-> | ->]; [by left | by right].
Qed.

Lemma effect_calls mu w l mu' w' l' :
  effect mu w l mu' w' l' → ∃ k, calls w' = calls w ++ k.
Proof.
  intros [HQ| -> | r -> | r _ _ Hk | p a _ _ _ Hk | p a _ _ _ Hk].
  - exists []. rewrite app_nil_r. apply HQ.
  - exists []. by rewrite app_nil_r.
  - exists []. by rewrite app_nil_r.
  - by eexists.
  - exists []. by rewrite app_nil_r.
  - exists []. by rewrite app_nil_r.
Qed.

Lemma effect_issued w0 mu w l mu' w' l' :
  effect mu w l mu' w' l' → clock w0 ≤ clock w →
  (∀ c, c ∈ calls w →
        clock w0 ≤ issued c ∧ ∀ p at_, outcome c = Ok (p, at_) → issued c ≤ at_) →
  ∀ c, c ∈ calls w' →
       clock w0 ≤ issued c ∧ ∀ p at_, outcome c = Ok (p, at_) → issued c ≤ at_.
Proof.
  intros He Hclk Hold c Hc.
  destruct He as [HQ| -> | r -> | r _ _ Hk _ Hle Hr | p a _ _ _ Hk | p a _ _ _ Hk].
  - rewrite (q_calls _ _ _ _ _ _ HQ) in Hc. by apply Hold.
  - by apply Hold.
  - by apply Hold.
  - rewrite Hk in Hc. apply elem_of_app in Hc as [Hc|Hc]; [by apply Hold|].
    apply list_elem_of_singleton in Hc as ->. simpl. split; [done|].
    intros p at_ ->. destruct Hr as [_ ->]. done.
  - rewrite Hk in Hc. by apply Hold.
  - rewrite Hk in Hc. by apply Hold.
Qed.

Lemma step_served w0 c m : Inv w0 m → Served w0 m → Served w0 (step c m).
Proof.
  intros HI HS. unfold step. destruct (try_step c m) as [m'|] eqn:Hs; [|done].
  apply try_step_Some in Hs as (l & mu' & w' & l' & Hl & Ha & ->).
  pose proof (advance_effect _ _ _ _ _ _ _ Ha) as He.
  destruct (effect_calls _ _ _ _ _ _ He) as [k Hk].
  destruct (advance_locks _ _ _ _ _ _ _ Ha (sv_apart _ _ HS)) as [Hrd Hap].
  constructor; simpl.
  - pose proof (countReaders_update _ _ _ l' Hl) as Hu.
    pose proof (sv_readers _ _ HS). lia.
  - done.
  - apply (effect_issued w0 _ _ _ _ _ _ He (inv_clock _ _ HI) (sv_issued _ _ HS)).
  - intros H0 j lj Hj Hret.
    apply lookup_update in Hj as [[-> ->]|[Hne Hj]].
    + rewrite Hk. destruct Hret as [Hret|[p ->]].
      * destruct (advance_returning _ _ _ _ _ _ _ Ha Hret) as [Hfrom Hfresh].
        destruct (fresh_after_fetch w0 m _ l HI HS Hl Hfrom H0 Hfresh) as [at_ Hf].
        exists at_. by apply fetchedIn_app.
      * destruct (advance_L109 _ _ _ _ _ _ _ Ha) as [at_ ->].
        destruct (inv_halfway _ _ HI _ _ _ Hl) as (cs & t & Hcs & _).
        exists at_. apply fetchedIn_app. rewrite Hcs.
        exists {| issued := t; outcome := Ok (p, at_) |}, p. split; [|done].
        apply elem_of_app. right. by apply list_elem_of_singleton.
    + destruct (sv_success _ _ HS H0 j lj Hj Hret) as [at_ Hf].
      exists at_. rewrite Hk. by apply fetchedIn_app.
  - intros H0 j lj rates at_ Hj Hres. rewrite Hk. apply fetchedIn_app.
    apply lookup_update in Hj as [[-> ->]|[Hne Hj]].
    + destruct (advance_result _ _ _ _ _ _ _ _ _ Ha Hres) as [Hold|[Hfrom ->]].
      * apply (sv_result _ _ HS H0 _ l rates at_ Hl Hold).
      * apply (cached_time_fetched w0 m _ l HI HS Hl).
        -- destruct Hfrom as [Hret|[p ->]]; [|right; done].
           destruct l; try done; [by left | by right].
        -- apply (sv_success _ _ HS H0 _ l Hl Hfrom).
    + apply (sv_result _ _ HS H0 j lj rates at_ Hj Hres).
Qed.

Lemma run_served w0 cs m : Inv w0 m → Served w0 m → Served w0 (run cs m).
Proof.
  revert m. induction cs as [|c cs IH]; intros m HI HS; [done|].
  simpl. apply IH; [by apply step_inv | by apply step_served].
Qed.

Lemma start_served n w0 : calls w0 = [] → Served w0 (start n w0).
Proof.
  intros Hk.
  assert (Hgs : ∀ i l, goroutines (start n w0) !! i = Some l → l = L88).
  { intros i l Hi. simpl in Hi. by apply lookup_replicate in Hi as [-> _]. }
  constructor; simpl.
  - by rewrite countReaders_replicate.
  - done.
  - intros c. rewrite Hk. by intros ?%elem_of_nil.
  - intros _ i l Hi Hr. rewrite (Hgs i l Hi) in Hr. by destruct Hr as [Hr|[p Hr]].
  - intros _ i l rates at_ Hi Hr. by rewrite (Hgs i l Hi) in Hr.
Qed.

(** Under any interleaving, from a state without a fresh snapshot:
    every call that has returned values returns the time of a fetcher
    invocation of the run. *)
Lemma run_returns_fetched n w0 schedule i rates at_ :
  calls w0 = [] → staleAt (cache w0) (clock w0) →
  goroutines (run schedule (start n w0)) !! i = Some (Returned (Ok (rates, at_))) →
  ∃ c p, c ∈ calls (world (run schedule (start n w0)))
         ∧ outcome c = Ok (p, at_)
         ∧ clock w0 ≤ issued c ∧ issued c ≤ at_.
Proof.
  intros Hk H0 Hi.
  pose proof (run_inv w0 schedule _ (start_inv n w0 Hk)) as HI.
  pose proof (run_served w0 schedule _ (start_inv n w0 Hk) (start_served n w0 Hk)) as HS.
  destruct (sv_result _ _ HS H0 i _ rates at_ Hi eq_refl) as (c & p & Hc & Ho).
  destruct (sv_issued _ _ HS c Hc) as [Hle Hat].
  exists c, p. repeat split; [done..|]. by apply (Hat p).
Qed.

(** ** What the specification states of concurrent calls *)




(** ** What the specification states of a refresh *)

(** C6. A call of [getRates] on a cache whose snapshot is absent, or
    whose age at the call's first test has reached the TTL (so also
    when it has exceeded it):
    - run alone, it invokes the fetcher on its round trip, once, and
      the record of invocations gains that result; when the fetcher
      succeeds, its payload and time replace both fields of the cache,
      the call returns that payload filtered and that time, the time
      the round trip ended, and it lies a TTL or more after the
      [fetchedAt] of the snapshot replaced, so strictly later; and on a
      response of status 200 whose body decodes with base USD the
      fetcher does succeed, so the cache then holds what the upstream
      sent and the call returns it;
    - run as one of [n] concurrent calls from a state whose record of
      invocations is empty, under any interleaving: by the time a call
      has returned the fetcher has been invoked, though not by each
      call (a call whose test under the write lock finds the snapshot
      that another call stored returns that one); the time a call
      returns is the time of a successful invocation of the run, a TTL
      or more after the [fetchedAt] there was; and outside the two
      assignments of lines 106 and 107 the cache holds the payload and
      time of the last invocation that succeeded. *)
Theorem getRates_refreshes_stale_snapshot o w n schedule :
  (staleAt (cache w) (clock w + Z.of_N (wait1 o)) →
   let w2 := pass (wait2 o) (pass (wait1 o) w) in
   let f := fetchFrankfurter (trip o) (wait3 o) w2 in
   calls (getRates o w).2 = calls w ++ [{| issued := clock w2; outcome := f.1 |}]
   ∧ (∀ p at_,
        f.1 = Ok (p, at_) →
        cache (getRates o w).2 = {| payload := Some p; fetchedAt := at_ |}
        ∧ (getRates o w).1 = Ok ((filterRates p (heap f.2)).1, at_)
        ∧ heap (getRates o w).2 = (filterRates p (heap f.2)).2
        ∧ at_ = clock w2 + Z.of_N (wait3 o)
        ∧ (is_Some (payload (cache w)) →
           fetchedAt (cache w) + cacheTTL ≤ at_ ∧ fetchedAt (cache w) < at_))
   ∧ (∀ resp date rates,
        trip o = DoResponse resp → StatusCode resp = StatusOK →
        Body resp = Decoded "USD" date rates →
        ∃ stored out,
          cache (getRates o w).2
          = {| payload := Some {| Base := "USD"; Date := date; Rates := stored |};
               fetchedAt := clock w2 + Z.of_N (wait3 o) |}
          ∧ contents (heap (getRates o w).2) stored = default ∅ rates
          ∧ (getRates o w).1 = Ok (out, clock w2 + Z.of_N (wait3 o))
          ∧ (is_Some (payload (cache w)) →
             fetchedAt (cache w) < clock w2 + Z.of_N (wait3 o))))
  ∧ (calls w = [] → staleAt (cache w) (clock w) →
     let m := run schedule (start n w) in
     ((∀ j l, goroutines m !! j = Some l → storing l = false) →
      cache (world m) = cacheAfter (cache w) (calls (world m)))
     ∧ ∀ i r,
         goroutines m !! i = Some (Returned r) →
         calls (world m) ≠ []
         ∧ ∀ rates at_,
             r = Ok (rates, at_) →
             (∃ c p, c ∈ calls (world m) ∧ outcome c = Ok (p, at_)
                     ∧ clock w ≤ issued c ∧ issued c ≤ at_)
             ∧ (is_Some (payload (cache w)) →
                fetchedAt (cache w) + cacheTTL ≤ at_ ∧ fetchedAt (cache w) < at_)).
Proof.
  split; [apply getRates_refresh|].
  intros Hk H0 m.
  pose proof (run_inv w schedule _ (start_inv n w Hk)) as HI.
  split; [apply (inv_stored _ _ HI)|].
  intros i r Hi. split.
  - intros Hnil. by pose proof (inv_early _ _ HI H0 Hnil i _ Hi).
  - intros rates at_ ->.
    destruct (run_returns_fetched n w schedule i rates at_ Hk H0 Hi)
      as (c & p & Hc & Ho & Hle & Hat).
    split; [by exists c, p|].
    intros [q Hq]. destruct H0 as [H0|H0]; [congruence|].
    rewrite cacheTTL_value in *. lia.
Qed.

Lemma getRates_refreshes_stale_snapshot_witness :
  let o := sample.call sample.ok in
  let w := sample.lapsed in
  let m := run (sample.herd sample.ok) (start 2 w) in
  let p := {| Base := "USD"; Date := "2025-01-02"; Rates := Some 3%positive |} in
  (calls (getRates o w).2
   = [{| issued := 305000000001; outcome := Ok (p, 306000000001) |}]
   ∧ cache (getRates o w).2 = {| payload := Some p; fetchedAt := 306000000001 |}
   ∧ (getRates o w).1 = Ok (4%positive, 306000000001)
   ∧ fetchedAt (cache w) + cacheTTL ≤ 306000000001
   ∧ ∃ stored out,
       cache (getRates o w).2
       = {| payload := Some {| Base := "USD"; Date := "2025-01-02"; Rates := stored |};
            fetchedAt := 306000000001 |}
       ∧ contents (heap (getRates o w).2) stored = sample.table
       ∧ (getRates o w).1 = Ok (out, 306000000001))
  ∧ (cache (world m) = cacheAfter (cache w) (calls (world m))
     ∧ goroutines m !! 1%nat = Some (Returned (Ok (5%positive, 303000000001)))
     ∧ calls (world m) ≠ []
     ∧ (∃ c q, c ∈ calls (world m) ∧ outcome c = Ok (q, 303000000001)
               ∧ clock w ≤ issued c ∧ issued c ≤ 303000000001)
     ∧ fetchedAt (cache w) + cacheTTL ≤ 303000000001).
Proof.
  intros o w m p.
  destruct (getRates_refreshes_stale_snapshot o w 2 (sample.herd sample.ok))
    as [HS HM].
  assert (Hsome : is_Some (payload (cache w))) by (eexists; reflexivity).
  split.
  - assert (Hstale : staleAt (cache w) (clock w + Z.of_N (wait1 o))).
    { right. vm_compute. discriminate. }
    destruct (HS Hstale) as (Hcalls & Hok & H200).
    destruct (Hok p 306000000001) as (Hc & Hr & _ & _ & Hlate);
      [vm_compute; reflexivity|].
    split; [exact Hcalls|]. split; [exact Hc|]. split; [exact Hr|].
    split; [exact (proj1 (Hlate Hsome))|].
    destruct (H200 _ "2025-01-02"%string (Some sample.table) eq_refl eq_refl eq_refl)
      as (stored & out & Hc' & Hh & Hr' & _).
    exists stored, out. split; [exact Hc'|]. split; [exact Hh | exact Hr'].
  - assert (Hstale : staleAt (cache w) (clock w)).
    { right. vm_compute. discriminate. }
    destruct (HM eq_refl Hstale) as [Hcache Hret].
    assert (Hg : goroutines m = [Returned (Ok (4%positive, 303000000001));
                                 Returned (Ok (5%positive, 303000000001))]).
    { vm_compute. reflexivity. }
    split.
    { apply Hcache. intros j l Hj.
      change (goroutines m !! j = Some l) in Hj. rewrite Hg in Hj.
      destruct j as [|[|j]]; simpl in Hj; [by injection Hj as <-..|done]. }
    assert (Hi : goroutines m !! 1%nat = Some (Returned (Ok (5%positive, 303000000001)))).
    { by rewrite Hg. }
    destruct (Hret 1%nat _ Hi) as [Hne Hat].
    destruct (Hat _ _ eq_refl) as [Hin Hlate].
    split; [exact Hi|]. split; [exact Hne|]. split; [exact Hin|].
    exact (proj1 (Hlate Hsome)).
Defined.

(** ** The specification's scenario *)

(** The upstream answers 200 with base USD and rates for CNY, SEK, EUR
    and JPY: the first call returns the three served rates and the
    time the fetch ended, and the cache holds the payload. *)
Example scenario_first_call :
  let r := getRates (sample.call sample.ok) (initial 0) in
  r.1 = Ok (2%positive, 3000000000)
  ∧ contents (heap r.2) (Some 2%positive)
    = <["CNY" := 7.1%float]> (<["SEK" := 10.4%float]> (<["EUR" := 0.92%float]> ∅))
  ∧ fetchedAt (cache r.2) = 3000000000
  ∧ length (calls r.2) = 1%nat.
Proof. vm_compute. repeat split; reflexivity. Qed.

(** Two calls arriving together against that upstream: one fetch, and
    both return the three rates with the same [fetchedAt]. *)
Example scenario_two_callers :
  let m := run (sample.herd sample.ok) (start 2 (initial 0)) in
  goroutines m = [Returned (Ok (2%positive, 0)); Returned (Ok (3%positive, 0))]
  ∧ mu m = unlocked
  ∧ length (calls (world m)) = 1%nat
  ∧ contents (heap (world m)) (Some 2%positive)
    = contents (heap (world m)) (Some 3%positive).
Proof. vm_compute. repeat split; reflexivity. Qed.

(** The snapshot fetched at 3 s has aged a nanosecond past the TTL.  A
    call run alone fetches at 305 s and stores and returns what the
    upstream sent, with the time the round trip ended; of two calls that
    arrive together one fetches, and both return its time. *)
Example scenario_refresh :
  let w := sample.lapsed in
  let r := getRates (sample.call sample.ok) w in
  let m := run (sample.herd sample.ok) (start 2 w) in
  fetchedAt (cache w) = 3000000000
  ∧ clock w = 303000000001
  ∧ r.1 = Ok (4%positive, 306000000001)
  ∧ cache r.2
    = {| payload := Some {| Base := "USD"; Date := "2025-01-02";
                            Rates := Some 3%positive |};
         fetchedAt := 306000000001 |}
  ∧ contents (heap r.2) (Some 3%positive) = sample.table
  ∧ map issued (calls r.2) = [305000000001]
  ∧ goroutines m = [Returned (Ok (4%positive, 303000000001));
                    Returned (Ok (5%positive, 303000000001))]
  ∧ map issued (calls (world m)) = [303000000001]
  ∧ fetchedAt (cache (world m)) = 303000000001.
Proof. vm_compute. repeat split; reflexivity. Qed.
